(** * A shallow embedding of [parse_task1.py]

    The Python module defines one class, [PetriNet], that reads a PNML
    document through [xml.etree.ElementTree], stores places, transitions
    and arcs, derives every transition's preset and postset, and builds the
    incidence matrix of the net.

    The development has three layers:
    - [Py]: the Python built-ins the class relies on ([int], [sorted],
      [str.split], [str.strip], [list.index]) together with the exceptions
      they raise, and the string tests that ElementTree applies to tags;
    - [ET]: the fragment of ElementTree the class calls ([Element.get],
      [Element.find], [Element.findall] with a [.//] path), with the
      reading of tags of ElementPath;
    - [PetriNet]: the class itself, one definition per method. *)

From Stdlib Require Import ZArith String Ascii List Lia.
From stdpp Require Import gmap strings list fin_maps sorting pretty.

#[local] Set Warnings "-clear-no-such-hyp".
Local Open Scope Z_scope.
Local Open Scope string_scope.

(** ** Exceptions *)

(** The exceptions that can leave the methods modelled below. *)
Inductive exn := TypeError | ValueError | KeyError | IndexError.

(** An evaluation either returns a value or raises. *)
Inductive result (A : Type) : Type :=
| Ok (a : A)
| Raise (e : exn).
Arguments Ok {A} a.
Arguments Raise {A} e.

#[global] Instance exn_eq_dec : EqDecision exn.
Proof. solve_decision. Defined.

#[global] Instance result_ret : MRet result := fun _ a => Ok a.
#[global] Instance result_bind : MBind result := fun _ _ f m =>
  match m with
  | Ok a => f a
  | Raise e => Raise e
  end.

(** A [for] loop whose body may raise: the accumulator is threaded from
    left to right and the first exception ends the loop. *)
Fixpoint foldM {A B} (f : A → B → result A) (a : A) (l : list B) : result A :=
  match l with
  | [] => Ok a
  | x :: l' => a' ← f a x; foldM f a' l'
  end.

(** ** Python built-ins *)

Module Py.

(** Identifiers come from [Element.get], which answers [None] for a
    missing attribute: a key is [None] or a [str]. *)
Abbreviation key := (option string).

(** [str(k)] as an f-string renders it. *)
Definition str (k : key) : string :=
  match k with
  | Some s => s
  | None => "None"
  end.

(** [a < b].  Two strings compare by code point, which on UTF-8 text is
    the byte-wise order of [String.ltb]; [None] supports no ordering. *)
Definition lt (a b : key) : result bool :=
  match a, b with
  | Some x, Some y => Ok (String.ltb x y)
  | _, _ => Raise TypeError
  end.

(** [sorted(l)], as an insertion sort driven by [lt].  Python's own sort is
    a merge sort; on a list without repetitions every comparison sort
    returns the same list, and on a list of two or more elements each
    element takes part in a comparison, so a [None] among them raises
    [TypeError] here exactly when it does there. *)
Fixpoint insort (x : key) (l : list key) : result (list key) :=
  match l with
  | [] => Ok [x]
  | y :: l' =>
      b ← lt x y;
      if b : bool then Ok (x :: y :: l')
      else (r ← insort x l'; Ok (y :: r))
  end.

Fixpoint sorted (l : list key) : result (list key) :=
  match l with
  | [] => Ok []
  | x :: l' => s ← sorted l'; insort x s
  end.

(** [l.index(x)]: position of the first occurrence, [ValueError] when
    there is none. *)
Fixpoint index (l : list key) (x : key) : result nat :=
  match l with
  | [] => Raise ValueError
  | y :: l' => if decide (y = x) then Ok 0%nat else (i ← index l' x; Ok (S i))
  end.

(** [s.split(sep)] for a one-character separator: the pieces between the
    occurrences of [sep]; the list is never empty. *)
Fixpoint split (sep : ascii) (s : string) : list string :=
  match s with
  | EmptyString => [EmptyString]
  | String c s' =>
      if decide (c = sep) then EmptyString :: split sep s'
      else match split sep s' with
           | [] => [String c EmptyString]
           | piece :: pieces => String c piece :: pieces
           end
  end.

(** [s.strip(c)] for a one-character set: drop [c] at both ends. *)
Fixpoint lstrip (c : ascii) (s : string) : string :=
  match s with
  | String a s' => if decide (a = c) then lstrip c s' else s
  | EmptyString => EmptyString
  end.

Definition strip (c : ascii) (s : string) : string :=
  String.rev (lstrip c (String.rev (lstrip c s))).

(** [s[n:]] *)
Fixpoint drop (n : nat) (s : string) : string :=
  match n, s with
  | S n', String _ s' => drop n' s'
  | _, _ => s
  end.

(** [s[:len(p)] == p] and, for a [p] that is not empty, [s[-len(p):] == p]. *)
Fixpoint startswith (s p : string) {struct p} : bool :=
  match p, s with
  | EmptyString, _ => true
  | String b p', String a s' => if decide (a = b) then startswith s' p' else false
  | String _ _, EmptyString => false
  end.

Definition endswith (s p : string) : bool := startswith (String.rev s) (String.rev p).

(** [s.isascii()]: a string is kept as its UTF-8 bytes, and the ASCII
    characters are the bytes below 128. *)
Definition isascii (s : string) : bool :=
  forallb (λ c, (nat_of_ascii c <? 128)%nat) (list_ascii_of_string s).

(** [int(s)], base ten, for a string [s] of ASCII characters: optional
    white space (tab, line feed, vertical tab, form feed, carriage return,
    space), an optional sign, decimal digits in which single underscores may
    separate digits, optional white space; more digits than
    [sys.int_info.default_max_str_digits] are refused, as CPython 3.11 and
    later do by default.  Anything else is a [ValueError].

    On a string with other characters [int] also reads the decimal digits
    and the white space of Unicode, whose tables are not modelled: what is
    stated about [int] below is stated for strings with [isascii]. *)
Inductive int_state := AtStart | AfterDigit | AfterUnderscore.

Fixpoint skip_space (l : list ascii) : list ascii :=
  match l with
  | c :: l' => if Ascii.is_space c then skip_space l' else l
  | [] => []
  end.

Fixpoint int_digits (st : int_state) (acc : Z) (l : list ascii) : option Z :=
  match l with
  | [] => match st with AfterDigit => Some acc | _ => None end
  | c :: l' =>
      match Ascii.is_nat c with
      | Some d => int_digits AfterDigit (10 * acc + Z.of_nat d) l'
      | None =>
          if decide (c = "_"%char) then
            match st with
            | AfterDigit => int_digits AfterUnderscore acc l'
            | _ => None
            end
          else
            match st, skip_space l with
            | AfterDigit, [] => Some acc
            | _, _ => None
            end
      end
  end.

Definition int_literal (s : string) : option Z :=
  match skip_space (list_ascii_of_string s) with
  | "+"%char :: l => int_digits AtStart 0 l
  | "-"%char :: l => Z.opp <$> int_digits AtStart 0 l
  | l => int_digits AtStart 0 l
  end.

Definition max_str_digits : nat := 4300.

(** The number of digits of [s]. *)
Definition digits (s : string) : nat :=
  length (filter (λ c, is_Some (Ascii.is_nat c)) (list_ascii_of_string s)).

Definition int (s : string) : result Z :=
  match int_literal s with
  | Some z => if (digits s <=? max_str_digits)%nat then Ok z else Raise ValueError
  | None => Raise ValueError
  end.

End Py.


(** ** ElementTree *)

Module ET.

(** An element: its tag in the [{uri}local] form ElementTree uses for a
    namespaced name, its attributes, its [text] ([None] when the element is
    empty or starts with a child) and its children in document order. *)
#[local] Unset Elimination Schemes.
Inductive Element :=
| Elem (tag : string) (attrib : list (string * string)) (text : option string)
       (children : list Element).
#[local] Set Elimination Schemes.

Definition tag (e : Element) : string := let (t, _, _, _) := e in t.
Definition attrib (e : Element) : list (string * string) := let (_, a, _, _) := e in a.
Definition text (e : Element) : option string := let (_, _, x, _) := e in x.
Definition children (e : Element) : list Element := let (_, _, _, c) := e in c.

(** [e.get(name)]. *)
Fixpoint lookup_attrib (name : string) (a : list (string * string)) : Py.key :=
  match a with
  | [] => None
  | (k, v) :: a' => if decide (k = name) then Some v else lookup_attrib name a'
  end.

Definition get (e : Element) (name : string) : Py.key := lookup_attrib name (attrib e).

(** [e.iter()]: the element, then its descendants, in document order. *)
Fixpoint iter (e : Element) : list Element :=
  match e with
  | Elem _ _ _ cs => e :: flat_map iter cs
  end.

(** How ElementPath (Python 3.8 and later) reads the tag [t] of a path
    step, once the prefix is resolved: [{*}name] stands for [name] in any
    namespace or in none, [{}name] for [name] in no namespace, [{uri}*] for
    any name in the namespace [uri], [{*}*] and [*] for every element and
    [{}*] for every element without namespace; any other tag is compared
    as a whole.  ([{}*] reads the first character of the tag of an element,
    which a parser never leaves empty; the class searches for no name that
    ends with a star.) *)
Definition is_wildcard_tag (t : string) : bool :=
  Py.startswith t "{*}" || Py.endswith t "}*".

Definition selects (t el_tag : string) : bool :=
  if is_wildcard_tag t then
    if decide (t = "{*}*") then true
    else if decide (t = "{}*") then negb (Py.startswith el_tag "{")
    else if Py.startswith t "{*}" then
      bool_decide (el_tag = Py.drop 3 t) || Py.endswith el_tag (Py.drop 2 t)
    else Py.startswith el_tag (String.rev (Py.drop 1 (String.rev t)))
  else if decide (t = "*") then true
  else bool_decide (el_tag = if Py.startswith t "{}" then Py.drop 2 t else t).

(** The first element of [l] that the tag [t] selects. *)
Fixpoint first_tagged (t : string) (l : list Element) : option Element :=
  match l with
  | [] => None
  | e :: l' => if selects t (tag e) then Some e else first_tagged t l'
  end.

(** [e.findall('.//t')]: the proper descendants of [e] that the tag [t]
    selects, in document order. *)
Definition findall_descendants (e : Element) (t : string) : list Element :=
  filter (λ d, selects t (tag d) = true) (flat_map iter (children e)).

(** [e.find('t')]: the first child of [e] that the tag [t] selects. *)
Definition find (e : Element) (t : string) : option Element :=
  first_tagged t (children e).

(** A path step [pnml:local] is resolved against the prefix map
    [{'pnml': uri}] into the tag [{uri}local]. *)
Definition qname (uri local : string) : string := "{" +:+ uri +:+ "}" +:+ local.

(** [ET.parse(file_path).getroot()], or the exception that the caller
    catches. *)
Inductive parse_result :=
| ParseError
| Parsed (root : Element).

End ET.

(** ** The class [PetriNet] *)

(** [{'id': p_id, 'token': initial_marking}] *)
Record Place := { p_id : Py.key; token : Z }.

(** [{'id': t_id, 'preset': [...], 'postset': [...]}] *)
Record Transition := { t_id : Py.key; preset : list Py.key; postset : list Py.key }.

(** [{'id': arc_id, 'source': source, 'target': target}] *)
Record Arc := { arc_id : Py.key; source : Py.key; target : Py.key }.

Record PetriNet := {
  places : gmap Py.key Place;
  transitions : gmap Py.key Transition;
  arcs : list Arc;
  place_ids : list Py.key;
  transition_ids : list Py.key;
  incidence_matrix : list (list Z)
}.

#[global] Instance Place_eq_dec : EqDecision Place.
Proof. solve_decision. Defined.
#[global] Instance Transition_eq_dec : EqDecision Transition.
Proof. solve_decision. Defined.
#[global] Instance Arc_eq_dec : EqDecision Arc.
Proof. solve_decision. Defined.

Definition __init__ : PetriNet :=
  {| places := ∅; transitions := ∅; arcs := [];
     place_ids := []; transition_ids := []; incidence_matrix := [] |}.

(** [k in d] and [list(d.keys())] for a dictionary [d]. *)
Definition contains {V} (d : gmap Py.key V) (k : Py.key) : bool :=
  bool_decide (is_Some (d !! k)).

Definition keys {V} (d : gmap Py.key V) : list Py.key := elements (dom d).

(** [matrix[p_idx][t_idx] += d]; the source's [-= 1] is [d = -1].  Both
    indices are in range wherever the builder calls it. *)
Definition bump (d : Z) (p_idx t_idx : nat) (matrix : list (list Z)) : list (list Z) :=
  alter (alter (λ v, v + d) t_idx) p_idx matrix.

(** The loops [for p_id in trans_data[...]] of the matrix builder. *)
Definition bump_all (ids : list Py.key) (d : Z) (t_idx : nat)
    (matrix : list (list Z)) (l : list Py.key) : result (list (list Z)) :=
  foldM (λ matrix p_id, p_idx ← Py.index ids p_id; Ok (bump d p_idx t_idx matrix)) matrix l.

(** [enumerate(l)], counting from [i]. *)
Fixpoint enumerate_from {A} (i : nat) (l : list A) : list (nat * A) :=
  match l with
  | [] => []
  | x :: l' => (i, x) :: enumerate_from (S i) l'
  end.

Definition column (self : PetriNet) (matrix : list (list Z)) (it : nat * Py.key)
    : result (list (list Z)) :=
  let '(t_idx, t_id) := it in
  trans_data ← match transitions self !! t_id with
               | Some td => Ok td
               | None => Raise KeyError
               end;
  matrix ← bump_all (place_ids self) (-1) t_idx matrix (preset trans_data);
  bump_all (place_ids self) 1 t_idx matrix (postset trans_data).

Definition with_matrix (self : PetriNet) (matrix : list (list Z)) : PetriNet :=
  {| places := places self; transitions := transitions self; arcs := arcs self;
     place_ids := place_ids self; transition_ids := transition_ids self;
     incidence_matrix := matrix |}.

Definition _generate_incidence_matrix (self : PetriNet) : result PetriNet :=
  let n_p := length (place_ids self) in
  let n_t := length (transition_ids self) in
  let matrix := replicate n_p (replicate n_t 0) in
  matrix ← foldM (column self) matrix (enumerate_from 0 (transition_ids self));
  Ok (with_matrix self matrix).

(** The body of [for t in self.transitions.values()]. *)
Definition reset (t : Transition) : Transition :=
  {| t_id := t_id t; preset := []; postset := [] |}.

Definition add_preset (src : Py.key) (t : Transition) : Transition :=
  {| t_id := t_id t; preset := preset t ++ [src]; postset := postset t |}.

Definition add_postset (tgt : Py.key) (t : Transition) : Transition :=
  {| t_id := t_id t; preset := preset t; postset := postset t ++ [tgt] |}.

(** The body of [for arc in self.arcs]. *)
Definition link (pl : gmap Py.key Place) (tr : gmap Py.key Transition) (arc : Arc)
    : gmap Py.key Transition :=
  let src := source arc in
  let tgt := target arc in
  if contains pl src && contains tr tgt then alter (add_preset src) tgt tr
  else if contains tr src && contains pl tgt then alter (add_postset tgt) src tr
  else tr.

Definition _build_relationships (self : PetriNet) : result PetriNet :=
  place_ids ← Py.sorted (keys (places self));
  transition_ids ← Py.sorted (keys (transitions self));
  let transitions := reset <$> transitions self in
  let transitions := fold_left (link (places self)) (arcs self) transitions in
  _generate_incidence_matrix
    {| places := places self; transitions := transitions; arcs := arcs self;
       place_ids := place_ids; transition_ids := transition_ids;
       incidence_matrix := incidence_matrix self |}.

(** The namespace step of [load_from_pnml]: the binding of the prefix
    [pnml] in the dictionary [ns], [None] standing for the empty dictionary
    of the [except IndexError] branch. *)
Definition namespace_of (root : ET.Element) : option string :=
  match Py.split "}" (ET.tag root) !! 0%nat with
  | Some piece => Some (Py.strip "{" piece)
  | None => None
  end.

(** The local helper [find_all(node, tag_name)], for a [tag_name] that is
    a name, as are the three that the class passes. *)
Definition find_all (ns : option string) (node : ET.Element) (tag_name : string)
    : list ET.Element :=
  match ns with
  | Some uri => ET.findall_descendants node (ET.qname uri tag_name)
  | None => ET.findall_descendants node tag_name
  end.

(** [node.find('pnml:t', ns) if ns else node.find('t')] *)
Definition find_one (ns : option string) (node : ET.Element) (tag_name : string)
    : option ET.Element :=
  match ns with
  | Some uri => ET.find node (ET.qname uri tag_name)
  | None => ET.find node tag_name
  end.

(** The value of the local variable [initial_marking] at the end of the
    body of the loop over places. *)
Definition initial_marking (ns : option string) (place : ET.Element) : result Z :=
  match find_one ns place "initialMarking" with
  | Some marking_tag =>
      match find_one ns marking_tag "text" with
      | Some text_tag =>
          match ET.text text_tag with
          | Some s => if decide (s = "") then Ok 0 else Py.int s
          | None => Ok 0
          end
      | None => Ok 0
      end
  | None => Ok 0
  end.

(** Steps 2, 3 and 4 of [load_from_pnml]. *)
Definition parse_place (ns : option string) (pl : gmap Py.key Place) (place : ET.Element)
    : result (gmap Py.key Place) :=
  let id := ET.get place "id" in
  m ← initial_marking ns place;
  Ok (<[id := {| p_id := id; token := m |}]> pl).

Definition parse_transition (tr : gmap Py.key Transition) (trans : ET.Element)
    : gmap Py.key Transition :=
  let id := ET.get trans "id" in
  <[id := {| t_id := id; preset := []; postset := [] |}]> tr.

Definition arc_of_element (arc : ET.Element) : Arc :=
  {| arc_id := ET.get arc "id"; source := ET.get arc "source"; target := ET.get arc "target" |}.

Definition parse_arc (acc : list Arc) (arc : ET.Element) : list Arc :=
  (acc ++ [arc_of_element arc])%list.

(** [load_from_pnml(file_path)]: the returned boolean and the object after
    the call.  An exception that leaves the method ends the program in the
    source; the state it leaves behind is not kept. *)
Definition load_from_pnml (self : PetriNet) (file : ET.parse_result)
    : result (bool * PetriNet) :=
  match file with
  | ET.ParseError => Ok (false, self)
  | ET.Parsed root =>
      let ns := namespace_of root in
      pl ← foldM (parse_place ns) (places self) (find_all ns root "place");
      let tr := fold_left parse_transition (find_all ns root "transition") (transitions self) in
      let ar := fold_left parse_arc (find_all ns root "arc") (arcs self) in
      self' ← _build_relationships
                {| places := pl; transitions := tr; arcs := ar;
                   place_ids := place_ids self; transition_ids := transition_ids self;
                   incidence_matrix := incidence_matrix self |};
      Ok (true, self')
  end.

(** [check_consistency()]: the returned boolean together with the list
    [errors], which the method prints entry by entry when it fails. *)
Definition all_nodes (self : PetriNet) : gset Py.key :=
  dom (places self) ∪ dom (transitions self).

(** The four messages that [check_consistency] appends to [errors]. *)
Definition no_place : string := "Mạng không có Place nào.".
Definition no_transition : string := "Mạng không có Transition nào.".

Definition missing_source (arc : Arc) : string :=
  "Arc " +:+ Py.str (arc_id arc) +:+ " có source '" +:+ Py.str (source arc)
    +:+ "' không tồn tại.".

Definition missing_target (arc : Arc) : string :=
  "Arc " +:+ Py.str (arc_id arc) +:+ " có target '" +:+ Py.str (target arc)
    +:+ "' không tồn tại.".

(** The body of [for arc in self.arcs]. *)
Definition check_arc (nodes : gset Py.key) (errors : list string) (arc : Arc) : list string :=
  let errors :=
    if decide (source arc ∉ nodes) then (errors ++ [missing_source arc])%list else errors in
  if decide (target arc ∉ nodes) then (errors ++ [missing_target arc])%list else errors.

Definition check_consistency (self : PetriNet) : bool * list string :=
  let nodes := all_nodes self in
  let errors := [] in
  let errors := if decide (places self = ∅) then (errors ++ [no_place])%list else errors in
  let errors :=
    if decide (transitions self = ∅) then (errors ++ [no_transition])%list else errors in
  let errors := fold_left (check_arc nodes) (arcs self) errors in
  if decide (errors = []) then (true, errors) else (false, errors).

(** * Vocabulary of the specification *)

(** ** The order on identifiers *)

(** [key_lt a b]: both are strings and [a] is strictly below [b]. *)
Definition key_lt (a b : Py.key) : Prop :=
  match a, b with
  | Some x, Some y => String.ltb x y = true
  | _, _ => False
  end.

#[global] Instance key_lt_dec : RelDecision key_lt.
Proof. intros [x|] [y|]; simpl; apply _. Defined.

(** A list of keys can be sorted when it holds no [None] or at most one
    entry. *)
Definition sortable (l : list Py.key) : Prop := None ∉ l ∨ (length l ≤ 1)%nat.

(** ** The incidence matrix *)

(** [l.count(p)] *)
Definition occurrences (p : Py.key) (l : list Py.key) : nat :=
  length (filter (λ x, x = p) l).

(** The weight that one transition contributes to the row of place [p]. *)
Definition weight (p : Py.key) (td : Transition) : Z :=
  Z.of_nat (occurrences p (postset td)) - Z.of_nat (occurrences p (preset td)).

Definition weight_of (self : PetriNet) (p t : Py.key) : Z :=
  match transitions self !! t with
  | Some td => weight p td
  | None => 0
  end.

(** The matrix as the specification describes it: one row per entry of
    [place_ids], one column per entry of [transition_ids]. *)
Definition incidence (self : PetriNet) : list (list Z) :=
  (λ p, weight_of self p <$> transition_ids self) <$> place_ids self.

(** [matrix[i][j]], when both indices are in range. *)
Definition entry (matrix : list (list Z)) (i j : nat) : option Z :=
  row ← matrix !! i; row !! j.

Definition shape (n_p n_t : nat) (matrix : list (list Z)) : Prop :=
  length matrix = n_p ∧ Forall (λ row, length row = n_t) matrix.

(** What the matrix builder needs from the object it runs on. *)
Definition buildable (self : PetriNet) : Prop :=
  NoDup (place_ids self) ∧
  Forall (λ t, ∃ td, transitions self !! t = Some td ∧
                     Forall (λ p, p ∈ place_ids self) (preset td) ∧
                     Forall (λ p, p ∈ place_ids self) (postset td))
         (transition_ids self).

(** [sum(matrix[i][j] for i in range(len(matrix)))] *)
Definition column_sum (matrix : list (list Z)) (j : nat) : Z :=
  foldr (λ row acc, default 0 (row !! j) + acc) 0 matrix.

(** ** The relationship builder *)

(** The transitions after the two loops of [_build_relationships]. *)
Definition relink (self : PetriNet) : gmap Py.key Transition :=
  fold_left (link (places self)) (arcs self) (reset <$> transitions self).

(** The object on which [_build_relationships] calls the matrix builder. *)
Definition relinked (self : PetriNet) (pids tids : list Py.key) : PetriNet :=
  {| places := places self; transitions := relink self; arcs := arcs self;
     place_ids := pids; transition_ids := tids;
     incidence_matrix := incidence_matrix self |}.

(** Every entry of a preset or postset is a key of [pl]. *)
Definition linked_to (pl : gmap Py.key Place) (tr : gmap Py.key Transition) : Prop :=
  ∀ k td, tr !! k = Some td →
    Forall (λ p, is_Some (pl !! p)) (preset td) ∧
    Forall (λ p, is_Some (pl !! p)) (postset td).

(** The object with its transitions replaced. *)
Definition with_transitions (self : PetriNet) (tr : gmap Py.key Transition) : PetriNet :=
  {| places := places self; transitions := tr; arcs := arcs self;
     place_ids := place_ids self; transition_ids := transition_ids self;
     incidence_matrix := incidence_matrix self |}.

(** ** Loading *)

(** The object that [load_from_pnml] hands to [_build_relationships]. *)
Definition parsed (self : PetriNet) (root : ET.Element) (pl : gmap Py.key Place) : PetriNet :=
  let ns := namespace_of root in
  {| places := pl;
     transitions := fold_left parse_transition (find_all ns root "transition") (transitions self);
     arcs := fold_left parse_arc (find_all ns root "arc") (arcs self);
     place_ids := place_ids self; transition_ids := transition_ids self;
     incidence_matrix := incidence_matrix self |}.

(** The tag of an element without namespace does not start with a brace. *)
Definition unqualified_tag (e : ET.Element) : Prop := ∀ s, ET.tag e ≠ String "{" s.

(** The namespaces under which a search compares tags as a whole: every
    [uri] but the empty one and [*], for which the path [{uri}name] is read
    as a tag without namespace or as a wildcard. *)
Definition literal_namespace (uri : string) : Prop := uri ≠ "" ∧ uri ≠ "*".

(** A tag without namespace as a parser gives it: a name, which is not
    empty and holds neither a brace nor a star. *)
Definition plain_name (s : string) : Prop :=
  s ≠ "" ∧ Forall (λ c, c ≠ "{"%char ∧ c ≠ "}"%char ∧ c ≠ "*"%char) (list_ascii_of_string s).

(** The names that [load_from_pnml] searches for with [find_all]. *)
Definition searched : list string := ["place"; "transition"; "arc"].

(** The text that the loop over the places hands to [int]: the [text] of
    the [text] element inside [initialMarking], when both elements exist and
    the text is neither [None] nor empty. *)
Definition marking_text (ns : option string) (place : ET.Element) : option string :=
  match find_one ns place "initialMarking" with
  | Some marking_tag =>
      match find_one ns marking_tag "text" with
      | Some text_tag =>
          match ET.text text_tag with
          | Some s => if decide (s = "") then None else Some s
          | None => None
          end
      | None => None
      end
  | None => None
  end.

(** The marking texts on which [Py.int] is [int]: a place passes when it
    hands no text to [int] or a text with [isascii]. *)
Definition ascii_marking (ns : option string) (place : ET.Element) : bool :=
  match marking_text ns place with
  | Some s => Py.isascii s
  | None => true
  end.

(** ** The consistency check *)

(** The defects of the net as a whole and of one arc, as the specification
    lists them. *)
Definition global_defects (self : PetriNet) : list string :=
  ((if decide (places self = ∅) then [no_place] else []) ++
   (if decide (transitions self = ∅) then [no_transition] else []))%list.

Definition arc_defects (nodes : gset Py.key) (arc : Arc) : list string :=
  ((if decide (source arc ∉ nodes) then [missing_source arc] else []) ++
   (if decide (target arc ∉ nodes) then [missing_target arc] else []))%list.

(** * Sample documents and nets *)

Definition pnml_uri : string := "http://www.pnml.org/version-2009/grammar/pnml".

(** A document builder: [q] qualifies a local name. *)
Definition place_elem (q : string → string) (id : string) (marking : option string)
    : ET.Element :=
  ET.Elem (q "place") [("id", id)] None
    match marking with
    | Some m => [ET.Elem (q "initialMarking") [] None [ET.Elem (q "text") [] (Some m) []]]
    | None => []
    end.

Definition transition_elem (q : string → string) (id : string) : ET.Element :=
  ET.Elem (q "transition") [("id", id)] None [].

Definition arc_elem (q : string → string) (id src tgt : string) : ET.Element :=
  ET.Elem (q "arc") [("id", id); ("source", src); ("target", tgt)] None [].

Definition document (q : string → string) (nodes : list ET.Element) : ET.Element :=
  ET.Elem (q "pnml") [] None [ET.Elem (q "net") [("id", "n1")] None nodes].

Definition qualified : string → string := ET.qname pnml_uri.
Definition unqualified : string → string := λ s, s.

(** Scenario A of the specification. *)
Definition scenario_A (q : string → string) : ET.Element :=
  document q [place_elem q "p1" (Some "1"); place_elem q "p2" (Some "0");
              transition_elem q "t1";
              arc_elem q "a1" "p1" "t1"; arc_elem q "a2" "t1" "p2"].

Definition place_of (id : string) (m : Z) : Place := {| p_id := Some id; token := m |}.

Definition arc_of (id src tgt : string) : Arc :=
  {| arc_id := Some id; source := Some src; target := Some tgt |}.

(** The net of scenario A once loaded. *)
Definition net_A : PetriNet :=
  {| places := <[Some "p1" := place_of "p1" 1]> (<[Some "p2" := place_of "p2" 0]> ∅);
     transitions :=
       {[ Some "t1" := {| t_id := Some "t1"; preset := [Some "p1"]; postset := [Some "p2"] |} ]};
     arcs := [arc_of "a1" "p1" "t1"; arc_of "a2" "t1" "p2"];
     place_ids := [Some "p1"; Some "p2"];
     transition_ids := [Some "t1"];
     incidence_matrix := [[-1]; [1]] |}.

(** Scenario A before the relationship builder has run. *)
Definition raw_A : PetriNet :=
  {| places := places net_A;
     transitions := {[ Some "t1" := {| t_id := Some "t1"; preset := []; postset := [] |} ]};
     arcs := arcs net_A;
     place_ids := []; transition_ids := []; incidence_matrix := [] |}.

(** Scenario E: the self-loop pair [p1 -> t1], [t1 -> p1]. *)
Definition scenario_E (q : string → string) : ET.Element :=
  document q [place_elem q "p1" (Some "1"); transition_elem q "t1";
              arc_elem q "a1" "p1" "t1"; arc_elem q "a2" "t1" "p1"].

Definition net_E : PetriNet :=
  {| places := {[ Some "p1" := place_of "p1" 1 ]};
     transitions :=
       {[ Some "t1" := {| t_id := Some "t1"; preset := [Some "p1"]; postset := [Some "p1"] |} ]};
     arcs := [arc_of "a1" "p1" "t1"; arc_of "a2" "t1" "p1"];
     place_ids := [Some "p1"];
     transition_ids := [Some "t1"];
     incidence_matrix := [[0]] |}.

(** Two parallel input arcs [p1 -> t1]. *)
Definition scenario_parallel (q : string → string) : ET.Element :=
  document q [place_elem q "p1" (Some "2"); transition_elem q "t1";
              arc_elem q "a1" "p1" "t1"; arc_elem q "a2" "p1" "t1"].

Definition net_parallel : PetriNet :=
  {| places := {[ Some "p1" := place_of "p1" 2 ]};
     transitions :=
       {[ Some "t1" := {| t_id := Some "t1"; preset := [Some "p1"; Some "p1"]; postset := [] |} ]};
     arcs := [arc_of "a1" "p1" "t1"; arc_of "a2" "p1" "t1"];
     place_ids := [Some "p1"];
     transition_ids := [Some "t1"];
     incidence_matrix := [[-2]] |}.

(** An empty document. *)
Definition empty_document (q : string → string) : ET.Element := document q [].

(** Scenario A loaded first, scenario E loaded into the same object next. *)
Definition net_A_then_E : PetriNet :=
  {| places := <[Some "p1" := place_of "p1" 1]> (<[Some "p2" := place_of "p2" 0]> ∅);
     transitions :=
       {[ Some "t1" := {| t_id := Some "t1"; preset := [Some "p1"; Some "p1"];
                          postset := [Some "p2"; Some "p1"] |} ]};
     arcs := [arc_of "a1" "p1" "t1"; arc_of "a2" "t1" "p2";
              arc_of "a1" "p1" "t1"; arc_of "a2" "t1" "p1"];
     place_ids := [Some "p1"; Some "p2"];
     transition_ids := [Some "t1"];
     incidence_matrix := [[-1]; [1]] |}.

(** Scenario D: a marking of 5, a place without marking, a place whose
    marking text is empty. *)
Definition scenario_D (q : string → string) : ET.Element :=
  document q [place_elem q "p1" (Some "5"); place_elem q "p2" None;
              place_elem q "p3" (Some ""); transition_elem q "t1"].

Definition net_D : PetriNet :=
  {| places := <[Some "p1" := place_of "p1" 5]>
                 (<[Some "p2" := place_of "p2" 0]> (<[Some "p3" := place_of "p3" 0]> ∅));
     transitions := {[ Some "t1" := {| t_id := Some "t1"; preset := []; postset := [] |} ]};
     arcs := [];
     place_ids := [Some "p1"; Some "p2"; Some "p3"];
     transition_ids := [Some "t1"];
     incidence_matrix := [[0]; [0]; [0]] |}.

(** A place whose marking text is not a number. *)
Definition scenario_non_numeric (q : string → string) : ET.Element :=
  document q [place_elem q "p1" (Some "abc"); transition_elem q "t1"].

(** Scenario B: an arc whose source [p9] is not declared. *)
Definition scenario_B (q : string → string) : ET.Element :=
  document q [place_elem q "p1" (Some "1"); transition_elem q "t1";
              arc_elem q "a1" "p9" "t1"].

Definition net_B : PetriNet :=
  {| places := {[ Some "p1" := place_of "p1" 1 ]};
     transitions := {[ Some "t1" := {| t_id := Some "t1"; preset := []; postset := [] |} ]};
     arcs := [arc_of "a1" "p9" "t1"];
     place_ids := [Some "p1"];
     transition_ids := [Some "t1"];
     incidence_matrix := [[0]] |}.

(** * Further vocabulary *)

(** ** Arcs as the relationship builder reads them *)

(** The two tests of the loop over [self.arcs]: the [if] and, when it
    fails, the [elif]. *)
Definition input_arc (pl : gmap Py.key Place) (tr : gmap Py.key Transition) (arc : Arc) : bool :=
  contains pl (source arc) && contains tr (target arc).

Definition output_arc (pl : gmap Py.key Place) (tr : gmap Py.key Transition) (arc : Arc) : bool :=
  negb (input_arc pl tr arc) && contains tr (source arc) && contains pl (target arc).

(** The sources of the input arcs into [t] and the targets of the output
    arcs out of [t], in the order of the arcs. *)
Definition inputs_of (pl : gmap Py.key Place) (tr : gmap Py.key Transition)
    (t : Py.key) (l : list Arc) : list Py.key :=
  source <$> filter (λ arc, input_arc pl tr arc = true ∧ target arc = t) l.

Definition outputs_of (pl : gmap Py.key Place) (tr : gmap Py.key Transition)
    (t : Py.key) (l : list Arc) : list Py.key :=
  target <$> filter (λ arc, output_arc pl tr arc = true ∧ source arc = t) l.

(** The object with its arcs replaced. *)
Definition with_arcs (self : PetriNet) (l : list Arc) : PetriNet :=
  {| places := places self; transitions := transitions self; arcs := l;
     place_ids := place_ids self; transition_ids := transition_ids self;
     incidence_matrix := incidence_matrix self |}.

(** The effect of the loop over the arcs on one transition. *)
Definition extend (pre post : list Py.key) (td : Transition) : Transition :=
  {| t_id := t_id td; preset := preset td ++ pre; postset := postset td ++ post |}.

(** The weight that the arcs of [l] give to place [p] in the column of
    transition [t]: output arcs from [t] to [p] minus input arcs from [p]
    to [t]. *)
Definition arc_weight (pl : gmap Py.key Place) (tr : gmap Py.key Transition)
    (p t : Py.key) (l : list Arc) : Z :=
  Z.of_nat (occurrences p (outputs_of pl tr t l)) - Z.of_nat (occurrences p (inputs_of pl tr t l)).

(** The matrix as a function of the arcs: the entry of place [p] and
    transition [t] is the weight the arcs give it. *)
Definition arc_matrix (pl : gmap Py.key Place) (tr : gmap Py.key Transition)
    (l : list Arc) (pids tids : list Py.key) : list (list Z) :=
  (λ p, (λ t, if contains tr t then arc_weight pl tr p t l else 0) <$> tids) <$> pids.

(** * The summary and the program *)

(** ** Formatting built-ins *)

Module Fmt.

(** [str(n)] for an integer and for a length. *)
Definition str_int (n : Z) : string := pretty n.
Definition str_nat (n : nat) : string := pretty n.

(** [len(s)], the number of code points of [s]: in UTF-8 text, the bytes
    that are not continuation bytes (those from 128 to 191). *)
Definition is_continuation (c : ascii) : bool :=
  (128 <=? nat_of_ascii c)%nat && (nat_of_ascii c <? 192)%nat.

Fixpoint len (s : string) : nat :=
  match s with
  | EmptyString => 0
  | String c s' => (if is_continuation c then 0 else 1) + len s'
  end.

(** [c * n] for a one-character string [c]. *)
Fixpoint repeat (c : ascii) (n : nat) : string :=
  match n with
  | O => EmptyString
  | S n' => String c (repeat c n')
  end.

(** [format(s, '>w')] for a string: [s] at the right of a field of [w]
    characters filled with spaces, [s] itself when it is longer. *)
Definition rjust (w : nat) (s : string) : string := repeat " " (w - len s) +:+ s.

(** [format(k, '>w')] for an identifier: [None] accepts no format
    specification. *)
Definition format_key (w : nat) (k : Py.key) : result string :=
  match k with
  | Some s => Ok (rjust w s)
  | None => Raise TypeError
  end.

(** [format(n, '>w')] for an integer. *)
Definition format_int (w : nat) (n : Z) : string := rjust w (str_int n).

(** [sep.join(l)] *)
Definition join (sep : string) (l : list string) : string := String.concat sep l.

(** [str(l)] for a list of integers. *)
Definition repr_ints (l : list Z) : string := "[" +:+ join ", " (str_int <$> l) +:+ "]".

End Fmt.

(** ** Printing *)

(** A computation that prints: the arguments of the calls of [print] made
    so far, in order, and the value returned or the exception raised. *)
Record io (A : Type) : Type := IO { printed : list string; outcome : result A }.
Arguments IO {A} printed outcome.
Arguments printed {A} i.
Arguments outcome {A} i.

#[global] Instance io_ret : MRet io := λ _ a, IO [] (Ok a).
#[global] Instance io_bind : MBind io := λ _ _ f m,
  match outcome m with
  | Ok a => IO (printed m ++ printed (f a)) (outcome (f a))
  | Raise e => IO (printed m) (Raise e)
  end.

Definition print (s : string) : io unit := IO [s] (Ok tt).

(** A computation that prints nothing. *)
Definition silent {A} (r : result A) : io A := IO [] r.

(** [for x in l: body(x)] *)
Fixpoint for_each {A} (l : list A) (body : A → io unit) : io unit :=
  match l with
  | [] => mret tt
  | x :: l' => body x ;; for_each l' body
  end.

(** [d[k]] for a dictionary and [l[i]] for a list and [i >= 0]. *)
Definition getitem {V} (d : gmap Py.key V) (k : Py.key) : result V :=
  match d !! k with
  | Some v => Ok v
  | None => Raise KeyError
  end.

Definition list_getitem {V} (l : list V) (i : nat) : result V :=
  match l !! i with
  | Some v => Ok v
  | None => Raise IndexError
  end.

(** ** [print_summary] *)

Definition newline : ascii := "010".

Definition print_summary (self : PetriNet) : io unit :=
  print (String newline "=== PETRI NET SUMMARY ===") ;;
  print ("Số lượng Places: " +:+ Fmt.str_nat (size (places self))) ;;
  print ("Số lượng Transitions: " +:+ Fmt.str_nat (size (transitions self))) ;;
  print ("Số lượng Arcs: " +:+ Fmt.str_nat (length (arcs self))) ;;
  print (String newline "--- Initial Marking (M0) ---") ;;
  m0 ← silent (mapM (λ p, pl ← getitem (places self) p; Ok (token pl)) (place_ids self));
  print ("M0 (Vector): " +:+ Fmt.repr_ints m0) ;;
  for_each (place_ids self) (λ p_id,
    pl ← silent (getitem (places self) p_id);
    if decide (token pl > 0) then
      pl' ← silent (getitem (places self) p_id);
      print ("  " +:+ Py.str p_id +:+ ": " +:+ Fmt.str_int (token pl'))
    else mret tt) ;;
  print (String newline "--- Incidence Matrix (A) ---") ;;
  columns ← silent (mapM (Fmt.format_key 4) (transition_ids self));
  print (Fmt.rjust 10 "" +:+ " | " +:+ Fmt.join "  " columns) ;;
  print (Fmt.repeat "-" (10 + 6 * length (transition_ids self))) ;;
  for_each (enumerate_from 0 (incidence_matrix self)) (λ it,
    let '(i, row) := it in
    p_id ← silent (list_getitem (place_ids self) i);
    let row_str := Fmt.join "  " (Fmt.format_int 4 <$> row) in
    cell ← silent (Fmt.format_key 10 p_id);
    print (cell +:+ " | " +:+ row_str)).

(** ** The prints of [check_consistency] and [load_from_pnml] *)

(** [check_consistency()] with what it prints. *)
Definition check_consistency_io (self : PetriNet) : io bool :=
  print (String newline "--- [CHECK] Kiểm tra tính nhất quán ---") ;;
  let '(passed, errors) := check_consistency self in
  if passed : bool then
    print ">> PASSED: Mạng hợp lệ." ;; mret true
  else
    print ">> FAILED: Phát hiện lỗi:" ;;
    for_each errors (λ e, print ("   - " +:+ e)) ;;
    mret false.

(** [load_from_pnml(file_path)] with what it prints: [cause] is the text of
    the exception that the parser raised, when it raised one. *)
Definition load_from_pnml_io (self : PetriNet) (file_path cause : string)
    (file : ET.parse_result) : io (bool * PetriNet) :=
  match file with
  | ET.ParseError =>
      print ("[LỖI] Không thể đọc file " +:+ file_path +:+ ": " +:+ cause) ;;
      mret (false, self)
  | ET.Parsed _ => silent (load_from_pnml self file)
  end.

(** ** The program *)

(** The block under [if __name__ == "__main__"], as a function of what
    parsing the file [test_task5.pnml] gives. *)
Definition main (cause : string) (file : ET.parse_result) : io unit :=
  let pnml_file := "test_task5.pnml" in
  let net := __init__ in
  r ← load_from_pnml_io net pnml_file cause file;
  let '(loaded, net) := r in
  if loaded : bool then
    passed ← check_consistency_io net;
    if passed : bool then print_summary net else mret tt
  else mret tt.


(** The bodies of the two loops of [print_summary]. *)
Definition marking_line (pl : gmap Py.key Place) (p_id : Py.key) : io unit :=
  x ← silent (getitem pl p_id);
  if decide (token x > 0) then
    x' ← silent (getitem pl p_id);
    print ("  " +:+ Py.str p_id +:+ ": " +:+ Fmt.str_int (token x'))
  else mret tt.

Definition matrix_line (ids : list Py.key) (it : nat * list Z) : io unit :=
  let '(i, row) := it in
  p_id ← silent (list_getitem ids i);
  let row_str := Fmt.join "  " (Fmt.format_int 4 <$> row) in
  cell ← silent (Fmt.format_key 10 p_id);
  print (cell +:+ " | " +:+ row_str).

(** * Properties *)

(** ** The exception monad *)

Lemma bind_Ok {A B} (f : A → result B) (m : result A) (b : B) :
  m ≫= f = Ok b ↔ ∃ a, m = Ok a ∧ f a = Ok b.
Proof.
  destruct m as [a|e]; simpl; split.
  - eauto.
  - by intros (a' & [= ->] & ?).
  - done.
  - by intros (? & ? & ?).
Qed.

Lemma foldM_app {A B} (f : A → B → result A) (a : A) (l1 l2 : list B) :
  foldM f a (l1 ++ l2) = foldM f a l1 ≫= λ a', foldM f a' l2.
Proof.
  revert a. induction l1 as [|x l1 IH]; intros a; simpl; [done|].
  destruct (f a x) as [a'|e]; simpl; [apply IH|done].
Qed.

Tactic Notation "inv_bind" hyp(H) "as" ident(a) ident(Ha) :=
  apply bind_Ok in H as (a & Ha & H).

(** ** The order on identifiers *)

Lemma ltb_compare (x y : string) : String.ltb x y = true ↔ String.compare x y = Lt.
Proof. unfold String.ltb. destruct (String.compare x y); split; congruence. Qed.

Lemma compare_refl (x : string) : String.compare x x = Eq.
Proof.
  induction x as [|a x IH]; simpl; [done|].
  unfold Ascii.compare. by rewrite N.compare_refl.
Qed.

Lemma ltb_irrefl (x : string) : String.ltb x x = false.
Proof. unfold String.ltb. by rewrite compare_refl. Qed.

Lemma ltb_le (x y : string) : String.ltb x y = true → String.le x y.
Proof.
  rewrite ltb_compare. unfold String.le, String.leb. by intros ->.
Qed.

Lemma ltb_trans (x y z : string) :
  String.ltb x y = true → String.ltb y z = true → String.ltb x z = true.
Proof.
  intros Hxy Hyz.
  assert (String.le x z) as Hxz by (trans y; by apply ltb_le).
  destruct (decide (x = z)) as [->|Hne].
  - assert (y = z) as -> by (apply (anti_symm String.le); by apply ltb_le).
    by rewrite ltb_irrefl in Hxy.
  - apply ltb_compare. unfold String.le, String.leb in Hxz.
    destruct (String.compare x z) eqn:Hc; [|done|done].
    by apply String.compare_eq_iff in Hc.
Qed.

Lemma ltb_total (x y : string) :
  String.ltb x y = false → x ≠ y → String.ltb y x = true.
Proof.
  intros Hxy Hne. apply ltb_compare.
  rewrite String.compare_antisym.
  unfold String.ltb in Hxy.
  destruct (String.compare x y) eqn:Hc; simpl; [|done|done].
  by apply String.compare_eq_iff in Hc.
Qed.

#[global] Instance key_lt_irrefl : Irreflexive key_lt.
Proof. intros [x|] H; simpl in H; [by rewrite ltb_irrefl in H|done]. Qed.

#[global] Instance key_lt_trans : Transitive key_lt.
Proof. intros [x|] [y|] [z|]; simpl; try done. apply ltb_trans. Qed.

(** ** [sorted] *)

Lemma lt_Ok (a b : Py.key) (r : bool) :
  Py.lt a b = Ok r → ∃ x y, a = Some x ∧ b = Some y ∧ r = String.ltb x y.
Proof. destruct a, b; simpl; intros [=]; eauto. Qed.

Lemma insort_Permutation (x : Py.key) (l r : list Py.key) :
  Py.insort x l = Ok r → r ≡ₚ x :: l.
Proof.
  revert r. induction l as [|y l IH]; intros r; simpl.
  - by intros [= <-].
  - intros H. inv_bind H as b Hb. destruct b.
    + by injection H as <-.
    + inv_bind H as r' Hr'. injection H as <-.
      rewrite (IH _ Hr'). apply Permutation_swap.
Qed.

Lemma sorted_Permutation (l r : list Py.key) : Py.sorted l = Ok r → r ≡ₚ l.
Proof.
  revert r. induction l as [|x l IH]; intros r; simpl.
  - by intros [= <-].
  - intros H. inv_bind H as s Hs. apply insort_Permutation in H. rewrite H.
    constructor. by apply IH.
Qed.

Lemma insort_StronglySorted (x : Py.key) (l r : list Py.key) :
  Py.insort x l = Ok r → x ∉ l → StronglySorted key_lt l → StronglySorted key_lt r.
Proof.
  revert r. induction l as [|y l IH]; intros r; simpl.
  - intros [= <-] _ _. repeat constructor.
  - intros H Hx Hl. inv_bind H as c Hc.
    apply lt_Ok in Hc as (a & b & -> & -> & ->).
    apply StronglySorted_inv in Hl as [Hl Hy].
    destruct (String.ltb a b) eqn:Hab.
    + injection H as <-. constructor; [by constructor|].
      constructor; [done|].
      eapply Forall_impl; [exact Hy|]. intros z Hz.
      by etrans; [|exact Hz].
    + inv_bind H as r' Hr'. injection H as <-.
      assert (a ≠ b) as Hne by (intros ->; apply Hx; left).
      constructor; [apply IH; [done|set_solver|done]|].
      rewrite (insort_Permutation _ _ _ Hr').
      constructor; [|done]. simpl. by apply ltb_total.
Qed.

Lemma sorted_StronglySorted (l r : list Py.key) :
  Py.sorted l = Ok r → NoDup l → StronglySorted key_lt r.
Proof.
  revert r. induction l as [|x l IH]; intros r; simpl.
  - intros [= <-] _. constructor.
  - intros H [Hx Hl]%NoDup_cons. inv_bind H as s Hs.
    eapply insort_StronglySorted; [done| |by apply IH].
    by rewrite (sorted_Permutation _ _ Hs).
Qed.

Lemma StronglySorted_key_lt_NoDup (l : list Py.key) :
  StronglySorted key_lt l → NoDup l.
Proof.
  induction 1 as [|x l _ IH Hx]; constructor; [|done].
  intros Hin. rewrite Forall_forall in Hx.
  by apply (irreflexivity key_lt x), Hx.
Qed.

(** [sorted] raises nothing but [TypeError], and only when [None] is
    compared with another key. *)
Lemma insort_Raise (x : Py.key) (l : list Py.key) (e : exn) :
  Py.insort x l = Raise e → e = TypeError ∧ None ∈ x :: l.
Proof.
  induction l as [|y l IH]; simpl; [done|].
  destruct x as [a|], y as [b|]; simpl; try (intros [= <-]; split; [done|set_solver]).
  destruct (String.ltb a b); [done|].
  destruct (Py.insort (Some a) l) as [r|e'] eqn:H; simpl; [done|].
  intros [= <-]. destruct (IH eq_refl) as [-> Hin]. split; [done|set_solver].
Qed.

Lemma sorted_Raise (l : list Py.key) (e : exn) :
  Py.sorted l = Raise e → e = TypeError ∧ None ∈ l ∧ (2 ≤ length l)%nat.
Proof.
  induction l as [|x l IH]; simpl; [done|].
  destruct (Py.sorted l) as [s|e'] eqn:Hs; simpl.
  - intros H. pose proof (sorted_Permutation _ _ Hs) as Hp.
    destruct (insort_Raise _ _ _ H) as [-> Hin]. rewrite Hp in Hin.
    split; [done|]. split; [done|].
    destruct l; simpl; [|lia].
    apply Permutation_nil_r in Hp as ->. simpl in H. done.
  - intros [= <-]. destruct (IH eq_refl) as (-> & ? & ?).
    repeat split; [set_solver|lia].
Qed.

Lemma insort_Some (x : string) (l : list Py.key) :
  Forall is_Some l → ∃ r, Py.insort (Some x) l = Ok r.
Proof.
  induction 1 as [|y l [b ->] _ [r IH]]; simpl; [eauto|].
  destruct (String.ltb x b); [eauto|]. rewrite IH. simpl. eauto.
Qed.

Lemma sorted_Some (l : list Py.key) :
  Forall is_Some l → ∃ r, Py.sorted l = Ok r.
Proof.
  induction 1 as [|x l [a ->] Hl [r IH]]; simpl; [eauto|].
  rewrite IH. simpl. apply insort_Some.
  by rewrite (sorted_Permutation _ _ IH).
Qed.

(** ** [index] *)

Lemma index_Ok (l : list Py.key) (x : Py.key) (i : nat) :
  Py.index l x = Ok i → l !! i = Some x.
Proof.
  revert i. induction l as [|y l IH]; intros i; simpl; [done|].
  destruct (decide (y = x)) as [->|Hne].
  - by intros [= <-].
  - intros H. inv_bind H as i' Hi'. injection H as <-. simpl. by apply IH.
Qed.

Lemma index_elem_of (l : list Py.key) (x : Py.key) :
  x ∈ l → ∃ i, Py.index l x = Ok i.
Proof.
  induction l as [|y l IH]; simpl; [by intros ?%elem_of_nil|].
  intros Hin. destruct (decide (y = x)) as [->|Hne]; [eauto|].
  destruct IH as [i Hi]; [set_solver|]. rewrite Hi. simpl. eauto.
Qed.

Lemma index_Raise (l : list Py.key) (x : Py.key) (e : exn) :
  Py.index l x = Raise e → e = ValueError ∧ x ∉ l.
Proof.
  induction l as [|y l IH]; simpl.
  - intros [= <-]. split; [done|]. apply not_elem_of_nil.
  - destruct (decide (y = x)) as [->|Hne]; [done|].
    destruct (Py.index l x) as [i|e'] eqn:Hi; simpl; [done|].
    intros [= <-]. destruct (IH eq_refl) as [-> Hx]. split; [done|set_solver].
Qed.

Lemma index_NoDup (l : list Py.key) (x : Py.key) (i : nat) :
  NoDup l → l !! i = Some x → Py.index l x = Ok i.
Proof.
  intros Hl Hi.
  destruct (index_elem_of l x) as [j Hj]; [by eapply list_elem_of_lookup_2|].
  rewrite Hj. f_equal. apply index_Ok in Hj.
  by eapply NoDup_lookup.
Qed.

(** ** The incidence matrix *)

Lemma occurrences_cons (p x : Py.key) (l : list Py.key) :
  occurrences p (x :: l) = ((if decide (x = p) then 1 else 0) + occurrences p l)%nat.
Proof.
  unfold occurrences. rewrite filter_cons. by destruct (decide (x = p)).
Qed.

Lemma entry_bump (d : Z) (i j i' j' : nat) (m : list (list Z)) :
  entry (bump d i j m) i' j' =
  if decide (i = i' ∧ j = j') then (λ v, v + d) <$> entry m i' j' else entry m i' j'.
Proof.
  unfold entry, bump.
  destruct (decide (i = i')) as [<-|Hi].
  - rewrite list_lookup_alter_eq. destruct (m !! i) as [row|]; simpl.
    + destruct (decide (j = j')) as [<-|Hj].
      * rewrite list_lookup_alter_eq. by rewrite decide_True.
      * rewrite list_lookup_alter_ne by done. rewrite decide_False; [done|tauto].
    + by case_decide.
  - rewrite list_lookup_alter_ne by done. rewrite decide_False; [done|tauto].
Qed.

Lemma shape_bump (d : Z) (i j n_p n_t : nat) (m : list (list Z)) :
  shape n_p n_t m → shape n_p n_t (bump d i j m).
Proof.
  intros [Hlen Hrows]. split.
  - unfold bump. by rewrite length_alter.
  - apply Forall_alter; [done|]. intros row _ Hrow. by rewrite length_alter.
Qed.

Lemma entry_replicate (n_p n_t i j : nat) :
  (i < n_p)%nat → (j < n_t)%nat → entry (replicate n_p (replicate n_t 0)) i j = Some 0.
Proof.
  intros Hi Hj. unfold entry.
  rewrite lookup_replicate_2 by done. simpl. by rewrite lookup_replicate_2.
Qed.

Lemma shape_replicate (n_p n_t : nat) : shape n_p n_t (replicate n_p (replicate n_t 0)).
Proof.
  split; [apply length_replicate|].
  apply Forall_replicate. apply length_replicate.
Qed.

Section matrix_builder.
Variable ids : list Py.key.
Hypothesis ids_NoDup : NoDup ids.

(** One inner loop adds [d] to column [t_idx] once per occurrence. *)
Lemma bump_all_spec (d : Z) (t_idx : nat) (l : list Py.key) (m : list (list Z)) :
  Forall (λ p, p ∈ ids) l →
  ∃ m', bump_all ids d t_idx m l = Ok m' ∧
        (∀ n_p n_t, shape n_p n_t m → shape n_p n_t m') ∧
        ∀ i j p, ids !! i = Some p →
          entry m' i j =
          (λ v, v + (if decide (j = t_idx) then d * Z.of_nat (occurrences p l) else 0))
            <$> entry m i j.
Proof using ids_NoDup.
  intros Hl. revert m. induction Hl as [|x l Hx Hl IH]; intros m.
  - exists m. split; [done|]. split; [done|]. intros i j p Hp.
    unfold occurrences. simpl. destruct (entry m i j); simpl; f_equal.
    case_decide; lia.
  - unfold bump_all in *. simpl.
    destruct (index_elem_of _ _ Hx) as [i0 Hi0]. rewrite Hi0. simpl.
    destruct (IH (bump d i0 t_idx m)) as (m' & -> & Hshape & Hentry).
    exists m'. split; [done|]. split.
    { intros n_p n_t Hm. by apply Hshape, shape_bump. }
    intros i j p Hp. rewrite (Hentry i j p Hp), entry_bump, occurrences_cons.
    apply index_Ok in Hi0.
    destruct (decide (i0 = i ∧ t_idx = j)) as [[-> ->]|Hne].
    + assert (x = p) as -> by congruence.
      rewrite !decide_True by done.
      destruct (entry m i j); simpl; f_equal. lia.
    + destruct (decide (j = t_idx)) as [->|Hj].
      * assert (x ≠ p) as Hxp.
        { intros ->. apply Hne. split; [|done]. by eapply NoDup_lookup. }
        rewrite decide_False by done.
        by destruct (entry m i t_idx).
      * done.
Qed.
End matrix_builder.

Section generate.
Variable self : PetriNet.
Hypothesis self_buildable : buildable self.

(** One iteration of the outer loop adds the weights of transition [t]
    to column [t_idx] and leaves the other columns alone. *)
Lemma column_spec (t_idx : nat) (t : Py.key) (m : list (list Z)) :
  t ∈ transition_ids self →
  ∃ m', column self m (t_idx, t) = Ok m' ∧
        (∀ n_p n_t, shape n_p n_t m → shape n_p n_t m') ∧
        ∀ i j p, place_ids self !! i = Some p →
          entry m' i j =
          (λ v, v + (if decide (j = t_idx) then weight_of self p t else 0)) <$> entry m i j.
Proof using self_buildable.
  intros Ht. destruct self_buildable as [Hnd Hts].
  rewrite Forall_forall in Hts. destruct (Hts t Ht) as (td & Htd & Hpre & Hpost).
  unfold column. rewrite Htd. simpl.
  destruct (bump_all_spec _ Hnd (-1) t_idx _ m Hpre) as (m1 & -> & Hs1 & He1). simpl.
  destruct (bump_all_spec _ Hnd 1 t_idx _ m1 Hpost) as (m2 & -> & Hs2 & He2).
  exists m2. split; [done|]. split; [by auto|].
  intros i j p Hp. rewrite (He2 i j p Hp), (He1 i j p Hp).
  unfold weight_of. rewrite Htd. unfold weight.
  destruct (entry m i j); simpl; f_equal. case_decide; lia.
Qed.

Lemma columns_spec (ts : list Py.key) (k : nat) (m : list (list Z)) :
  Forall (λ t, t ∈ transition_ids self) ts →
  ∃ m', foldM (column self) m (enumerate_from k ts) = Ok m' ∧
        (∀ n_p n_t, shape n_p n_t m → shape n_p n_t m') ∧
        ∀ i j p, place_ids self !! i = Some p →
          entry m' i j =
          (λ v, v + (if decide (k ≤ j)%nat
                     then from_option (weight_of self p) 0 (ts !! (j - k)%nat)
                     else 0)) <$> entry m i j.
Proof using self_buildable.
  intros Hts. revert k m. induction Hts as [|t ts Ht Hts IH]; intros k m.
  - exists m. split; [done|]. split; [done|]. intros i j p Hp.
    destruct (entry m i j); simpl; f_equal. case_decide; lia.
  - destruct (column_spec k t m Ht) as (m1 & Hm1 & Hs1 & He1).
    destruct (IH (S k) m1) as (m2 & Hm2 & Hs2 & He2).
    change (foldM (column self) m (enumerate_from k (t :: ts)))
      with (column self m (k, t) ≫= λ m1, foldM (column self) m1 (enumerate_from (S k) ts)).
    rewrite Hm1. simpl. rewrite Hm2.
    exists m2. split; [done|]. split; [by auto|].
    intros i j p Hp. rewrite (He2 i j p Hp), (He1 i j p Hp).
    destruct (entry m i j) as [v|]; simpl; [|done]. f_equal.
    destruct (decide (j = k)) as [->|Hjk].
    + rewrite decide_False by lia. rewrite decide_True by lia.
      replace (k - k)%nat with 0%nat by lia. simpl. lia.
    + destruct (decide (S k ≤ j)%nat) as [Hle|Hgt].
      * rewrite decide_True by lia.
        replace (j - k)%nat with (S (j - S k)) by lia. simpl. lia.
      * rewrite decide_False by lia. lia.
Qed.

(** On a buildable object the matrix builder returns, and its matrix is
    the one the specification describes. *)
Lemma generate_incidence_matrix_spec :
  _generate_incidence_matrix self = Ok (with_matrix self (incidence self)).
Proof using self_buildable.
  unfold _generate_incidence_matrix.
  set (n_p := length (place_ids self)). set (n_t := length (transition_ids self)).
  destruct (columns_spec (transition_ids self) 0 (replicate n_p (replicate n_t 0)))
    as (m & -> & Hshape & Hentry).
  { apply Forall_forall. auto. }
  simpl. f_equal. f_equal.
  destruct (Hshape n_p n_t (shape_replicate _ _)) as [Hlen Hrows].
  rewrite Forall_lookup in Hrows.
  apply list_eq. intros i. unfold incidence. rewrite list_lookup_fmap.
  destruct (place_ids self !! i) as [p|] eqn:Hp; simpl.
  - assert (i < n_p)%nat as Hi by (by eapply lookup_lt_Some).
    destruct (lookup_lt_is_Some_2 m i) as [row Hrow]; [lia|].
    rewrite Hrow. f_equal. apply list_eq. intros j.
    rewrite list_lookup_fmap.
    specialize (Hentry i j p Hp). unfold entry at 1 in Hentry.
    rewrite Hrow in Hentry. simpl in Hentry. rewrite Hentry.
    destruct (transition_ids self !! j) as [t|] eqn:Ht; simpl.
    + rewrite entry_replicate; [|done|by eapply lookup_lt_Some]. simpl.
      by rewrite Nat.sub_0_r, Ht.
    + unfold entry. rewrite lookup_replicate_2 by done. simpl.
      rewrite (proj1 (lookup_replicate_None _ _ _)); [done|].
      by apply lookup_ge_None.
  - apply lookup_ge_None. rewrite Hlen. by apply lookup_ge_None.
Qed.
End generate.

(** ** Dictionaries *)

Lemma elem_of_keys {V} (d : gmap Py.key V) (k : Py.key) : k ∈ keys d ↔ is_Some (d !! k).
Proof. unfold keys. by rewrite elem_of_elements, elem_of_dom. Qed.

Lemma NoDup_keys {V} (d : gmap Py.key V) : NoDup (keys d).
Proof. apply NoDup_elements. Qed.

Lemma length_keys {V} (d : gmap Py.key V) : length (keys d) = size d.
Proof. unfold keys. rewrite <- (size_dom (D := gset Py.key) d). done. Qed.

Lemma contains_true {V} (d : gmap Py.key V) (k : Py.key) :
  contains d k = true ↔ is_Some (d !! k).
Proof. unfold contains. apply bool_decide_eq_true. Qed.

(** ** The relationship builder *)

Lemma link_dom (pl : gmap Py.key Place) (tr : gmap Py.key Transition) (arc : Arc) :
  dom (link pl tr arc) = dom tr.
Proof.
  unfold link. repeat case_match; by rewrite ?dom_alter_L.
Qed.

Lemma fold_link_dom (pl : gmap Py.key Place) (l : list Arc) (tr : gmap Py.key Transition) :
  dom (fold_left (link pl) l tr) = dom tr.
Proof.
  revert tr. induction l as [|arc l IH]; intros tr; simpl; [done|].
  by rewrite IH, link_dom.
Qed.

Lemma link_linked_to (pl : gmap Py.key Place) (tr : gmap Py.key Transition) (arc : Arc) :
  linked_to pl tr → linked_to pl (link pl tr arc).
Proof.
  intros Htr k td. unfold link.
  destruct (contains pl (source arc) && contains tr (target arc)) eqn:Hin.
  - apply andb_true_iff in Hin as [Hsrc%contains_true _].
    rewrite lookup_alter. case_decide as Hk; [subst k|exact (Htr k td)].
    destruct (tr !! target arc) as [td0|] eqn:Htd0; simpl; [|done]. intros [= <-].
    destruct (Htr _ td0 Htd0) as [Hpre Hpost]. simpl. split; [|done].
    apply Forall_app. split; [done|]. by constructor.
  - destruct (contains tr (source arc) && contains pl (target arc)) eqn:Hout.
    + apply andb_true_iff in Hout as [_ Htgt%contains_true].
      rewrite lookup_alter. case_decide as Hk; [subst k|exact (Htr k td)].
      destruct (tr !! source arc) as [td0|] eqn:Htd0; simpl; [|done]. intros [= <-].
      destruct (Htr _ td0 Htd0) as [Hpre Hpost]. simpl. split; [done|].
      apply Forall_app. split; [done|]. by constructor.
    + exact (Htr k td).
Qed.

Lemma fold_link_linked_to (pl : gmap Py.key Place) (l : list Arc)
    (tr : gmap Py.key Transition) :
  linked_to pl tr → linked_to pl (fold_left (link pl) l tr).
Proof.
  revert tr. induction l as [|arc l IH]; intros tr Htr; simpl; [done|].
  by apply IH, link_linked_to.
Qed.

Lemma reset_linked_to (pl : gmap Py.key Place) (tr : gmap Py.key Transition) :
  linked_to pl (reset <$> tr).
Proof.
  intros k td. rewrite lookup_fmap.
  destruct (tr !! k); simpl; [|done]. intros [= <-]. simpl. by split.
Qed.

Lemma relink_linked_to (self : PetriNet) : linked_to (places self) (relink self).
Proof. apply fold_link_linked_to, reset_linked_to. Qed.

Lemma relink_dom (self : PetriNet) : dom (relink self) = dom (transitions self).
Proof. unfold relink. by rewrite fold_link_dom, dom_fmap_L. Qed.

Lemma relinked_buildable (self : PetriNet) (pids tids : list Py.key) :
  Py.sorted (keys (places self)) = Ok pids →
  Py.sorted (keys (transitions self)) = Ok tids →
  buildable (relinked self pids tids).
Proof.
  intros Hp Ht. apply sorted_Permutation in Hp as Hpp. apply sorted_Permutation in Ht as Htp.
  split; simpl.
  - rewrite Hpp. apply NoDup_keys.
  - apply Forall_forall. intros t Hin. rewrite Htp in Hin.
    apply elem_of_keys in Hin. rewrite <- elem_of_dom, <- relink_dom, elem_of_dom in Hin.
    destruct Hin as [td Htd]. exists td. split; [done|].
    destruct (relink_linked_to self t td Htd) as [Hpre Hpost].
    split; (eapply Forall_impl; [eassumption|]); intros p Hin;
      rewrite Hpp; by apply elem_of_keys.
Qed.

(** [_build_relationships] in closed form. *)
Lemma build_relationships_Ok (self self' : PetriNet) :
  _build_relationships self = Ok self' ↔
  ∃ pids tids,
    Py.sorted (keys (places self)) = Ok pids ∧
    Py.sorted (keys (transitions self)) = Ok tids ∧
    self' = with_matrix (relinked self pids tids) (incidence (relinked self pids tids)).
Proof.
  unfold _build_relationships. split.
  - intros H. inv_bind H as pids Hp. inv_bind H as tids Ht.
    exists pids, tids. split; [done|]. split; [done|].
    change (_generate_incidence_matrix (relinked self pids tids) = Ok self') in H.
    rewrite (generate_incidence_matrix_spec _ (relinked_buildable _ _ _ Hp Ht)) in H.
    by injection H as <-.
  - intros (pids & tids & Hp & Ht & ->). rewrite Hp. simpl. rewrite Ht. simpl.
    exact (generate_incidence_matrix_spec _ (relinked_buildable _ _ _ Hp Ht)).
Qed.

(** The only exception that leaves [_build_relationships] is the
    [TypeError] of [sorted]. *)
Lemma build_relationships_Raise (self : PetriNet) (e : exn) :
  _build_relationships self = Raise e →
  e = TypeError ∧
  ((None ∈ keys (places self) ∧ (2 ≤ size (places self))%nat) ∨
   (None ∈ keys (transitions self) ∧ (2 ≤ size (transitions self))%nat)).
Proof.
  unfold _build_relationships.
  destruct (Py.sorted (keys (places self))) as [pids|e1] eqn:Hp; simpl.
  - destruct (Py.sorted (keys (transitions self))) as [tids|e2] eqn:Ht; simpl.
    + intros H.
      change (_generate_incidence_matrix (relinked self pids tids) = Raise e) in H.
      by rewrite (generate_incidence_matrix_spec _ (relinked_buildable _ _ _ Hp Ht)) in H.
    + intros [= <-]. apply sorted_Raise in Ht as (-> & ? & ?).
      rewrite length_keys in *. auto.
  - intros [= <-]. apply sorted_Raise in Hp as (-> & ? & ?).
    rewrite length_keys in *. auto.
Qed.

(** ** Shape of the matrix, on any object *)

Lemma bump_all_shape (ids : list Py.key) (d : Z) (t_idx n_p n_t : nat)
    (l : list Py.key) (m m' : list (list Z)) :
  bump_all ids d t_idx m l = Ok m' → shape n_p n_t m → shape n_p n_t m'.
Proof.
  unfold bump_all. revert m. induction l as [|x l IH]; intros m; simpl.
  - by intros [= <-].
  - intros H Hm. inv_bind H as m1 Hm1. inv_bind Hm1 as i Hi.
    injection Hm1 as <-. eapply IH; [done|]. by apply shape_bump.
Qed.

Lemma column_shape (self : PetriNet) (n_p n_t : nat) (it : nat * Py.key)
    (m m' : list (list Z)) :
  column self m it = Ok m' → shape n_p n_t m → shape n_p n_t m'.
Proof.
  destruct it as [t_idx t]. unfold column. intros H Hm.
  inv_bind H as td Htd. inv_bind H as m1 Hm1.
  eapply bump_all_shape; [done|]. by eapply bump_all_shape.
Qed.

Lemma columns_shape (self : PetriNet) (n_p n_t : nat) (l : list (nat * Py.key))
    (m m' : list (list Z)) :
  foldM (column self) m l = Ok m' → shape n_p n_t m → shape n_p n_t m'.
Proof.
  revert m. induction l as [|it l IH]; intros m; simpl.
  - by intros [= <-].
  - intros H Hm. inv_bind H as m1 Hm1. eapply IH; [done|]. by eapply column_shape.
Qed.

Lemma generate_incidence_matrix_shape (self self' : PetriNet) :
  _generate_incidence_matrix self = Ok self' →
  place_ids self' = place_ids self ∧ transition_ids self' = transition_ids self ∧
  shape (length (place_ids self)) (length (transition_ids self)) (incidence_matrix self').
Proof.
  unfold _generate_incidence_matrix. intros H. inv_bind H as m Hm.
  injection H as <-. simpl. split; [done|]. split; [done|].
  eapply columns_shape; [done|]. apply shape_replicate.
Qed.

Lemma buildable_with_matrix (self : PetriNet) (m : list (list Z)) :
  buildable self → buildable (with_matrix self m).
Proof. done. Qed.

Lemma incidence_with_matrix (self : PetriNet) (m : list (list Z)) :
  incidence (with_matrix self m) = incidence self.
Proof. done. Qed.

(** ** Column sums *)

Lemma sum_indicator (ids : list Py.key) (x : Py.key) :
  NoDup ids → x ∈ ids →
  sum_list_with (λ p, if decide (x = p) then 1 else 0)%nat ids = 1%nat.
Proof.
  induction 1 as [|y ids Hy Hnd IH]; simpl.
  - by intros ?%elem_of_nil.
  - intros [->|Hin]%elem_of_cons.
    + rewrite decide_True by done.
      assert (sum_list_with (λ p, if decide (y = p) then 1 else 0)%nat ids = 0%nat) as ->; [|done].
      clear IH Hnd. induction ids as [|z ids IH]; simpl; [done|].
      apply not_elem_of_cons in Hy as [Hne Hy]. rewrite decide_False by done. by apply IH.
    + rewrite decide_False by (intros ->; done). by rewrite IH.
Qed.

Lemma sum_occurrences (ids l : list Py.key) :
  NoDup ids → Forall (λ p, p ∈ ids) l →
  sum_list_with (λ p, occurrences p l) ids = length l.
Proof.
  intros Hnd. induction 1 as [|x l Hx Hl IH]; simpl.
  - unfold occurrences. simpl. induction ids; simpl; [done|].
    apply NoDup_cons in Hnd as [_ Hnd]. by rewrite IHids.
  - rewrite <- IH.
    transitivity (sum_list_with (λ p, if decide (x = p) then 1 else 0) ids
                  + sum_list_with (λ p, occurrences p l) ids)%nat.
    + clear. induction ids as [|p ids IH]; simpl; [done|].
      rewrite occurrences_cons, IH. lia.
    + by rewrite (sum_indicator ids x Hnd Hx).
Qed.

Lemma column_sum_incidence (self : PetriNet) (j : nat) (t : Py.key) (td : Transition) :
  transition_ids self !! j = Some t → transitions self !! t = Some td →
  column_sum (incidence self) j = foldr (λ p acc, weight p td + acc) 0 (place_ids self).
Proof.
  intros Ht Htd. unfold incidence.
  induction (place_ids self) as [|p ids IH]; [done|].
  cbn [fmap list_fmap column_sum foldr]. fold (column_sum
    ((λ p, weight_of self p <$> transition_ids self) <$> ids) j).
  rewrite IH, list_lookup_fmap, Ht. cbn [fmap option_fmap option_map default from_option].
  unfold weight_of. by rewrite Htd.
Qed.

Lemma sum_weight (ids : list Py.key) (td : Transition) :
  foldr (λ p acc, weight p td + acc) 0 ids =
  Z.of_nat (sum_list_with (λ p, occurrences p (postset td)) ids)
  - Z.of_nat (sum_list_with (λ p, occurrences p (preset td)) ids).
Proof.
  induction ids as [|p ids IH]; simpl; [done|]. rewrite IH. unfold weight. lia.
Qed.

(** ** What holds after [_build_relationships] *)

Lemma entry_incidence (self : PetriNet) (i j : nat) (p t : Py.key) (td : Transition) :
  place_ids self !! i = Some p → transition_ids self !! j = Some t →
  transitions self !! t = Some td →
  entry (incidence self) i j = Some (weight p td).
Proof.
  intros Hp Ht Htd. unfold entry, incidence.
  rewrite list_lookup_fmap, Hp. simpl. rewrite list_lookup_fmap, Ht. simpl.
  unfold weight_of. by rewrite Htd.
Qed.


Section built.
Variables self self' : PetriNet.
Hypothesis Hbuilt : _build_relationships self = Ok self'.

Lemma built_places : places self' = places self.
Proof using Hbuilt.
  apply build_relationships_Ok in Hbuilt as (pids & tids & _ & _ & ->). done.
Qed.

Lemma built_arcs : arcs self' = arcs self.
Proof using Hbuilt.
  apply build_relationships_Ok in Hbuilt as (pids & tids & _ & _ & ->). done.
Qed.

Lemma built_transitions : transitions self' = relink self.
Proof using Hbuilt.
  apply build_relationships_Ok in Hbuilt as (pids & tids & _ & _ & ->). done.
Qed.

Lemma built_buildable : buildable self'.
Proof using Hbuilt.
  apply build_relationships_Ok in Hbuilt as (pids & tids & Hp & Ht & ->).
  apply buildable_with_matrix. by apply relinked_buildable.
Qed.

Lemma built_incidence : incidence_matrix self' = incidence self'.
Proof using Hbuilt.
  apply build_relationships_Ok in Hbuilt as (pids & tids & _ & _ & ->). done.
Qed.

Lemma built_place_ids :
  length (place_ids self') = size (places self') ∧
  StronglySorted key_lt (place_ids self') ∧
  ∀ p, p ∈ place_ids self' ↔ is_Some (places self' !! p).
Proof using Hbuilt.
  apply build_relationships_Ok in Hbuilt as (pids & tids & Hp & Ht & ->). simpl.
  pose proof (sorted_Permutation _ _ Hp) as Hperm.
  split; [by rewrite Hperm, length_keys|]. split.
  - eapply sorted_StronglySorted; [done|apply NoDup_keys].
  - intros p. by rewrite Hperm, elem_of_keys.
Qed.

Lemma built_transition_ids :
  length (transition_ids self') = size (transitions self') ∧
  StronglySorted key_lt (transition_ids self') ∧
  ∀ t, t ∈ transition_ids self' ↔ is_Some (transitions self' !! t).
Proof using Hbuilt.
  apply build_relationships_Ok in Hbuilt as (pids & tids & Hp & Ht & ->). simpl.
  pose proof (sorted_Permutation _ _ Ht) as Hperm.
  split; [|split].
  - rewrite Hperm, length_keys.
    by rewrite <- (size_dom (D := gset Py.key) (relink self)), relink_dom, size_dom.
  - eapply sorted_StronglySorted; [done|apply NoDup_keys].
  - intros t. by rewrite Hperm, elem_of_keys, <- !elem_of_dom, relink_dom.
Qed.

Lemma built_linked_to : linked_to (places self') (transitions self').
Proof using Hbuilt.
  rewrite built_places, built_transitions. apply relink_linked_to.
Qed.
End built.

(** ** What [load_from_pnml] does *)

Lemma load_from_pnml_true (self self' : PetriNet) (file : ET.parse_result) :
  load_from_pnml self file = Ok (true, self') ↔
  ∃ root pl,
    file = ET.Parsed root ∧
    foldM (parse_place (namespace_of root)) (places self)
          (find_all (namespace_of root) root "place") = Ok pl ∧
    _build_relationships (parsed self root pl) = Ok self'.
Proof.
  destruct file as [|root]; simpl.
  - split; [done|]. by intros (? & ? & ? & _).
  - split.
    + intros H. inv_bind H as pl Hpl. inv_bind H as s Hs. injection H as <-.
      by exists root, pl.
    + intros (? & pl & [= <-] & Hpl & Hs). rewrite Hpl. simpl.
      unfold parsed in Hs. by rewrite Hs.
Qed.

Lemma load_from_pnml_built (self self' : PetriNet) (file : ET.parse_result) :
  load_from_pnml self file = Ok (true, self') →
  ∃ self0, _build_relationships self0 = Ok self'.
Proof. intros (root & pl & _ & _ & H)%load_from_pnml_true. eauto. Qed.

(** ** Sample nets *)

Lemma load_scenario_A :
  load_from_pnml __init__ (ET.Parsed (scenario_A qualified)) = Ok (true, net_A).
Proof. vm_compute. reflexivity. Qed.

Lemma build_raw_A : _build_relationships raw_A = Ok net_A.
Proof. vm_compute. reflexivity. Qed.

(** ** Matrix entries, identifier lists, shape and column sums *)

(** C1: in a loaded net every place [p] and every transition [t] have a row
    and a column, and the matrix entry at the row of [p] and the column of
    [t] is the number of occurrences of [p] in the postset of [t] minus the
    number of its occurrences in the preset of [t].  The contributions add
    up: the self-loop pair of scenario E gives the entry 0, two parallel
    input arcs give -2. *)
Theorem incidence_entry_counts :
  (∀ self file self' p pd t td,
     load_from_pnml self file = Ok (true, self') →
     places self' !! p = Some pd → transitions self' !! t = Some td →
     (∃ i j, place_ids self' !! i = Some p ∧ transition_ids self' !! j = Some t) ∧
     ∀ i j, place_ids self' !! i = Some p → transition_ids self' !! j = Some t →
       entry (incidence_matrix self') i j =
       Some (Z.of_nat (occurrences p (postset td)) - Z.of_nat (occurrences p (preset td)))) ∧
  load_from_pnml __init__ (ET.Parsed (scenario_E qualified)) = Ok (true, net_E) ∧
  load_from_pnml __init__ (ET.Parsed (scenario_parallel qualified)) = Ok (true, net_parallel).
Proof.
  split; [|split; vm_compute; reflexivity].
  intros self file self' p pd t td [self0 Hb]%load_from_pnml_built Hp Ht.
  destruct (built_place_ids _ _ Hb) as (_ & _ & Hpin).
  destruct (built_transition_ids _ _ Hb) as (_ & _ & Htin).
  split.
  - destruct (list_elem_of_lookup_1 (place_ids self') p) as [i Hi]; [apply Hpin; eauto|].
    destruct (list_elem_of_lookup_1 (transition_ids self') t) as [j Hj]; [apply Htin; eauto|].
    eauto.
  - intros i j Hi Hj. rewrite (built_incidence _ _ Hb).
    by apply (entry_incidence self' i j p t td).
Qed.

Lemma incidence_entry_counts_witness :
  load_from_pnml __init__ (ET.Parsed (scenario_A qualified)) = Ok (true, net_A) ∧
  entry (incidence_matrix net_A) 1 0 = Some 1.
Proof.
  split; [vm_compute; reflexivity|].
  refine (proj2 (proj1 incidence_entry_counts __init__ (ET.Parsed (scenario_A qualified)) net_A
            (Some "p2") (place_of "p2" 0) (Some "t1")
            {| t_id := Some "t1"; preset := [Some "p1"]; postset := [Some "p2"] |}
            _ _ _) 1%nat 0%nat _ _); vm_compute; reflexivity.
Defined.

(** C7: in a loaded net [place_ids] has as many entries as there are
    places, is strictly increasing in the order of the identifiers and has
    no repetition; so has [transition_ids] for the transitions. *)
Theorem identifier_lists_sorted (self self' : PetriNet) (file : ET.parse_result) :
  load_from_pnml self file = Ok (true, self') →
  (length (place_ids self') = size (places self') ∧
   StronglySorted key_lt (place_ids self') ∧ NoDup (place_ids self')) ∧
  (length (transition_ids self') = size (transitions self') ∧
   StronglySorted key_lt (transition_ids self') ∧ NoDup (transition_ids self')).
Proof.
  intros [self0 Hb]%load_from_pnml_built.
  destruct (built_place_ids _ _ Hb) as (Hlp & Hsp & _).
  destruct (built_transition_ids _ _ Hb) as (Hlt & Hst & _).
  auto using StronglySorted_key_lt_NoDup.
Qed.

Lemma identifier_lists_sorted_witness :
  (length (place_ids net_A) = size (places net_A) ∧
   StronglySorted key_lt (place_ids net_A) ∧ NoDup (place_ids net_A)) ∧
  (length (transition_ids net_A) = size (transitions net_A) ∧
   StronglySorted key_lt (transition_ids net_A) ∧ NoDup (transition_ids net_A)).
Proof.
  apply (identifier_lists_sorted __init__ net_A (ET.Parsed (scenario_A qualified))).
  vm_compute. reflexivity.
Defined.

(** C8: whenever the matrix builder returns, its matrix has one row per
    entry of [place_ids] and every row has one column per entry of
    [transition_ids]; it returns on every object whose presets and postsets
    name entries of [place_ids]; the empty net yields the matrix without
    rows. *)
Theorem incidence_matrix_shape :
  (∀ self self',
     _generate_incidence_matrix self = Ok self' →
     length (incidence_matrix self') = length (place_ids self') ∧
     Forall (λ row, length row = length (transition_ids self')) (incidence_matrix self')) ∧
  (∀ self, buildable self → ∃ self', _generate_incidence_matrix self = Ok self') ∧
  _generate_incidence_matrix __init__ = Ok __init__ ∧
  incidence_matrix __init__ = [] ∧
  load_from_pnml __init__ (ET.Parsed (empty_document qualified)) = Ok (true, __init__).
Proof.
  split; [|split; [|by vm_compute]].
  - intros self self' (-> & -> & Hshape)%generate_incidence_matrix_shape. exact Hshape.
  - intros self Hself. rewrite (generate_incidence_matrix_spec self Hself). eauto.
Qed.

Lemma incidence_matrix_shape_witness :
  length (incidence_matrix net_A) = length (place_ids net_A) ∧
  Forall (λ row, length row = length (transition_ids net_A)) (incidence_matrix net_A).
Proof.
  apply (proj1 incidence_matrix_shape net_A net_A). vm_compute. reflexivity.
Defined.

(** C9: in a loaded net the entries of the column of a transition add up
    to the length of its postset minus the length of its preset. *)
Theorem incidence_column_sum (self self' : PetriNet) (file : ET.parse_result)
    (j : nat) (t : Py.key) (td : Transition) :
  load_from_pnml self file = Ok (true, self') →
  transition_ids self' !! j = Some t → transitions self' !! t = Some td →
  column_sum (incidence_matrix self') j =
  Z.of_nat (length (postset td)) - Z.of_nat (length (preset td)).
Proof.
  intros [self0 Hb]%load_from_pnml_built Ht Htd.
  rewrite (built_incidence _ _ Hb), (column_sum_incidence _ _ _ _ Ht Htd), sum_weight.
  destruct (built_buildable _ _ Hb) as [Hnd Hts].
  rewrite Forall_forall in Hts.
  destruct (Hts t) as (td' & Htd' & Hpre & Hpost); [by eapply list_elem_of_lookup_2|].
  assert (td' = td) as -> by congruence.
  by rewrite !sum_occurrences.
Qed.

Lemma incidence_column_sum_witness :
  column_sum (incidence_matrix net_A) 0 = 0.
Proof.
  refine (incidence_column_sum __init__ net_A (ET.Parsed (scenario_A qualified)) 0 (Some "t1")
            {| t_id := Some "t1"; preset := [Some "p1"]; postset := [Some "p2"] |} _ _ _);
    vm_compute; reflexivity.
Defined.

(** C10: after the relationship builder every entry of a preset or of a
    postset is a key of [places] and has a position in [place_ids], so that
    the matrix builder returns when it is run again on that object; the
    relationship builder itself can only raise the [TypeError] of [sorted]. *)
Theorem preset_postset_in_places :
  (∀ self self',
     _build_relationships self = Ok self' →
     (∀ t td p, transitions self' !! t = Some td → p ∈ (preset td ++ postset td)%list →
        is_Some (places self' !! p) ∧ p ∈ place_ids self' ∧
        ∃ i, Py.index (place_ids self') p = Ok i) ∧
     _generate_incidence_matrix self' = Ok self') ∧
  (∀ self e, _build_relationships self = Raise e → e = TypeError).
Proof.
  split.
  - intros self self' Hb. split.
    + intros t td p Htd Hp.
      destruct (built_linked_to _ _ Hb t td Htd) as [Hpre Hpost].
      assert (is_Some (places self' !! p)) as Hin.
      { rewrite Forall_forall in Hpre, Hpost.
        apply elem_of_app in Hp as [Hp|Hp]; auto. }
      destruct (built_place_ids _ _ Hb) as (_ & _ & Hids).
      split; [done|]. split; [by apply Hids|]. by apply index_elem_of, Hids.
    + rewrite (generate_incidence_matrix_spec _ (built_buildable self self' Hb)).
      f_equal. rewrite <- (built_incidence _ _ Hb). by destruct self'.
  - intros self e He. by destruct (build_relationships_Raise _ _ He).
Qed.

Lemma preset_postset_in_places_witness :
  _build_relationships raw_A = Ok net_A ∧
  (∀ t td p, transitions net_A !! t = Some td → p ∈ (preset td ++ postset td)%list →
     is_Some (places net_A !! p) ∧ p ∈ place_ids net_A ∧
     ∃ i, Py.index (place_ids net_A) p = Ok i) ∧
  _generate_incidence_matrix net_A = Ok net_A.
Proof.
  split; [vm_compute; reflexivity|].
  apply (proj1 preset_postset_in_places raw_A net_A). vm_compute. reflexivity.
Defined.

(** ** Idempotence of the relationship builder *)

Lemma reset_reset (t : Transition) : reset (reset t) = reset t.
Proof. done. Qed.

Lemma reset_link (pl : gmap Py.key Place) (tr : gmap Py.key Transition) (arc : Arc) :
  reset <$> link pl tr arc = reset <$> tr.
Proof.
  unfold link. repeat case_match; try done.
  - apply map_eq. intros k. rewrite !lookup_fmap, lookup_alter.
    case_decide as Hk; [subst k|done]. by destruct (tr !! target arc).
  - apply map_eq. intros k. rewrite !lookup_fmap, lookup_alter.
    case_decide as Hk; [subst k|done]. by destruct (tr !! source arc).
Qed.

Lemma reset_fold_link (pl : gmap Py.key Place) (l : list Arc) (tr : gmap Py.key Transition) :
  reset <$> fold_left (link pl) l tr = reset <$> tr.
Proof.
  revert tr. induction l as [|arc l IH]; intros tr; simpl; [done|].
  by rewrite IH, reset_link.
Qed.

Lemma reset_relink (self : PetriNet) : reset <$> relink self = reset <$> transitions self.
Proof.
  unfold relink. rewrite reset_fold_link, <- map_fmap_compose.
  apply map_fmap_ext. intros k t _. apply reset_reset.
Qed.

Lemma build_relationships_reset (self : PetriNet) (tr : gmap Py.key Transition) :
  reset <$> tr = reset <$> transitions self →
  _build_relationships (with_transitions self tr) = _build_relationships self.
Proof.
  intros Htr. unfold _build_relationships. simpl.
  assert (keys tr = keys (transitions self)) as ->.
  { unfold keys. by rewrite <- (dom_fmap_L reset tr), Htr, dom_fmap_L. }
  by rewrite Htr.
Qed.

(** C5: running the relationship builder on the object it has just produced
    returns that very object: the same presets, postsets and matrix.  What
    the presets and postsets held before a call has no effect on its
    outcome. *)
Theorem build_relationships_idempotent :
  (∀ self self',
     _build_relationships self = Ok self' →
     _build_relationships self' = Ok self') ∧
  (∀ self tr,
     reset <$> tr = reset <$> transitions self →
     _build_relationships (with_transitions self tr) = _build_relationships self).
Proof.
  split; [|exact build_relationships_reset].
  intros self self' Hb.
  pose proof Hb as (pids & tids & Hp & Ht & Hself')%build_relationships_Ok.
  rewrite <- Hb.
  transitivity (_build_relationships (with_transitions self (transitions self'))).
  - unfold _build_relationships. subst self'. done.
  - apply build_relationships_reset.
    rewrite (built_transitions _ _ Hb). apply reset_relink.
Qed.

Lemma build_relationships_idempotent_witness :
  _build_relationships raw_A = Ok net_A ∧ _build_relationships net_A = Ok net_A.
Proof.
  split; [vm_compute; reflexivity|].
  apply (proj1 build_relationships_idempotent raw_A net_A). vm_compute. reflexivity.
Defined.

(** ** The consistency check *)

Lemma check_arc_defects (nodes : gset Py.key) (errors : list string) (arc : Arc) :
  check_arc nodes errors arc = (errors ++ arc_defects nodes arc)%list.
Proof.
  unfold check_arc, arc_defects.
  repeat case_decide; simpl; by rewrite <- ?app_assoc, ?app_nil_r.
Qed.

Lemma fold_check_arc (nodes : gset Py.key) (l : list Arc) (errors : list string) :
  fold_left (check_arc nodes) l errors = (errors ++ flat_map (arc_defects nodes) l)%list.
Proof.
  revert errors. induction l as [|arc l IH]; intros errors; simpl.
  - by rewrite app_nil_r.
  - by rewrite IH, check_arc_defects, <- app_assoc.
Qed.

Lemma check_consistency_errors (self : PetriNet) :
  (check_consistency self).2 =
  (global_defects self ++ flat_map (arc_defects (all_nodes self)) (arcs self))%list.
Proof.
  unfold check_consistency, global_defects. rewrite fold_check_arc.
  by repeat case_decide.
Qed.

Lemma check_consistency_result (self : PetriNet) :
  (check_consistency self).1 = bool_decide ((check_consistency self).2 = []).
Proof.
  unfold check_consistency.
  case_decide as H; simpl; [by rewrite bool_decide_eq_true_2|by rewrite bool_decide_eq_false_2].
Qed.

Lemma arc_defects_nil (nodes : gset Py.key) (arc : Arc) :
  arc_defects nodes arc = [] ↔ source arc ∈ nodes ∧ target arc ∈ nodes.
Proof.
  unfold arc_defects. repeat case_decide; simpl; split; try done; try tauto.
  all: intros _; split; by apply dec_stable.
Qed.

Lemma flat_map_nil {A B} (f : A → list B) (l : list A) :
  flat_map f l = [] ↔ Forall (λ x, f x = []) l.
Proof.
  induction l as [|x l IH]; simpl.
  - split; [constructor|done].
  - rewrite Forall_cons, <- IH. split.
    + by intros [-> ->]%app_eq_nil.
    + by intros [-> ->].
Qed.

(** C4: the check returns true exactly when there is a place, there is a
    transition and both ends of every arc are among the identifiers of the
    places and transitions.  The list of defects holds one entry for each
    missing kind of node and one for each missing arc end, the former
    first, the latter in the order of the arcs; the check returns false
    exactly when that list is not empty. *)
Theorem check_consistency_spec (self : PetriNet) :
  let nodes := dom (places self) ∪ dom (transitions self) in
  ((check_consistency self).1 = true ↔
     (0 < size (places self))%nat ∧ (0 < size (transitions self))%nat ∧
     Forall (λ arc, source arc ∈ nodes ∧ target arc ∈ nodes) (arcs self)) ∧
  (check_consistency self).2 =
    ((if decide (places self = ∅) then [no_place] else []) ++
     (if decide (transitions self = ∅) then [no_transition] else []) ++
     flat_map (λ arc,
        (if decide (source arc ∉ nodes) then [missing_source arc] else []) ++
        (if decide (target arc ∉ nodes) then [missing_target arc] else [])) (arcs self))%list ∧
  ((check_consistency self).1 = false ↔ (check_consistency self).2 ≠ []).
Proof.
  intros nodes. rewrite check_consistency_result, check_consistency_errors.
  split; [|split].
  - rewrite bool_decide_eq_true. unfold global_defects.
    rewrite !app_nil, flat_map_nil.
    rewrite <- !Nat.neq_0_lt_0, !map_size_empty_iff.
    split.
    + intros [[Hp Ht] Harcs]. repeat split.
      * intros Hp'. by rewrite decide_True in Hp.
      * intros Ht'. by rewrite decide_True in Ht.
      * eapply Forall_impl; [exact Harcs|]. intros arc. by rewrite arc_defects_nil.
    + intros (Hp & Ht & Harcs). rewrite !decide_False by done. repeat split.
      eapply Forall_impl; [exact Harcs|]. intros arc. by rewrite arc_defects_nil.
  - unfold global_defects. by rewrite <- app_assoc.
  - by rewrite bool_decide_eq_false.
Qed.

(** Scenarios B and C of the specification: the dangling arc is left out of
    the preset and reported once; the empty net has two defects. *)
Example check_scenario_B :
  load_from_pnml __init__ (ET.Parsed (scenario_B qualified)) = Ok (true, net_B) ∧
  check_consistency net_B = (false, ["Arc a1 có source 'p9' không tồn tại."]) ∧
  check_consistency __init__ = (false, [no_place; no_transition]) ∧
  check_consistency net_A = (true, []).
Proof. repeat split; vm_compute; reflexivity. Qed.

(** ** When [sorted] returns *)

Lemma sorted_sortable (l r : list Py.key) : Py.sorted l = Ok r → NoDup l → sortable l.
Proof.
  intros Hs Hnd. pose proof (sorted_StronglySorted _ _ Hs Hnd) as Hr.
  pose proof (sorted_Permutation _ _ Hs) as Hp. unfold sortable. rewrite <- Hp.
  destruct Hr as [|a r Hr Ha]; [right; simpl; lia|].
  destruct r as [|b r]; [right; simpl; lia|]. left.
  apply Forall_cons in Ha as [Hab Ha]. intros Hin.
  apply elem_of_cons in Hin as [<-|Hin]; [done|].
  rewrite Forall_forall in Ha.
  assert (key_lt a None) as Hlt.
  { apply elem_of_cons in Hin as [<-|Hin]; [done|by apply Ha]. }
  by destruct a.
Qed.

Lemma sortable_sorted (l : list Py.key) : sortable l → ∃ r, Py.sorted l = Ok r.
Proof.
  intros [Hnone|Hlen].
  - apply sorted_Some, Forall_forall. intros [x|] Hx; [by eexists|done].
  - destruct l as [|x [|y l]]; simpl in *; [eauto..|lia].
Qed.

Lemma sortable_keys_subseteq {V W : Type} (d : gmap Py.key V) (d' : gmap Py.key W) :
  dom d' ⊆ dom d → sortable (keys d) → sortable (keys d').
Proof.
  intros Hsub [Hnone|Hlen]; [left|right].
  - rewrite elem_of_keys, <- elem_of_dom in *. set_solver.
  - unfold keys in *. pose proof (subseteq_size _ _ Hsub) as Hsize.
    unfold size, set_size in Hsize. simpl in Hsize. lia.
Qed.

Lemma build_relationships_sortable (self : PetriNet) :
  (∃ self', _build_relationships self = Ok self') ↔
  sortable (keys (places self)) ∧ sortable (keys (transitions self)).
Proof.
  split.
  - intros [self' (pids & tids & Hp & Ht & _)%build_relationships_Ok].
    split; eapply sorted_sortable; eauto using NoDup_keys.
  - intros [[pids Hp]%sortable_sorted [tids Ht]%sortable_sorted].
    eexists. apply build_relationships_Ok. eauto.
Qed.

#[global] Instance key_lt_antisymm : AntiSymm (=) key_lt.
Proof.
  intros a b Hab Hba. destruct (irreflexivity key_lt a). by trans b.
Qed.

(** [sorted] does not depend on the order in which a dictionary lists its
    keys. *)
Lemma sorted_order_independent (l l' : list Py.key) :
  NoDup l → l ≡ₚ l' → Py.sorted l = Py.sorted l'.
Proof.
  intros Hnd Hp. assert (NoDup l') as Hnd' by (by rewrite <- Hp).
  destruct (Py.sorted l) as [r|e] eqn:Hr.
  - pose proof (sorted_sortable _ _ Hr Hnd) as Hs.
    destruct (sortable_sorted l') as [r' Hr'].
    { unfold sortable in *. by rewrite <- Hp. }
    rewrite Hr'. f_equal. apply (StronglySorted_unique key_lt).
    + by eapply sorted_StronglySorted.
    + by eapply sorted_StronglySorted.
    + by rewrite (sorted_Permutation _ _ Hr), (sorted_Permutation _ _ Hr').
  - destruct (Py.sorted l') as [r'|e'] eqn:Hr'.
    + pose proof (sorted_sortable _ _ Hr' Hnd') as Hs.
      destruct (sortable_sorted l) as [r Hr2]; [|congruence].
      unfold sortable in *. by rewrite Hp.
    + destruct (sorted_Raise _ _ Hr) as [-> _].
      by destruct (sorted_Raise _ _ Hr') as [-> _].
Qed.

(** ** The three parsing loops *)

Lemma parse_places_union (ns : option string) (l : list ET.Element) (pl : gmap Py.key Place) :
  foldM (parse_place ns) pl l = (d ← foldM (parse_place ns) ∅ l; Ok (d ∪ pl)).
Proof.
  induction l as [|place l IH] using rev_ind.
  - simpl. by rewrite (left_id_L ∅ (∪)).
  - rewrite !foldM_app, IH.
    destruct (foldM (parse_place ns) ∅ l) as [d|e]; simpl; [|done].
    unfold parse_place. destruct (initial_marking ns place) as [m|e]; simpl; [|done].
    by rewrite insert_union_l.
Qed.

Lemma parse_transitions_union (l : list ET.Element) (tr : gmap Py.key Transition) :
  fold_left parse_transition l tr = fold_left parse_transition l ∅ ∪ tr.
Proof.
  induction l as [|trans l IH] using rev_ind.
  - simpl. by rewrite (left_id_L ∅ (∪)).
  - rewrite !fold_left_app. simpl. rewrite IH. unfold parse_transition.
    by rewrite insert_union_l.
Qed.

Lemma parse_arcs_app (l : list ET.Element) (acc : list Arc) :
  fold_left parse_arc l acc = (acc ++ (arc_of_element <$> l))%list.
Proof.
  revert acc. induction l as [|arc l IH]; intros acc; simpl.
  - by rewrite app_nil_r.
  - rewrite IH. unfold parse_arc. by rewrite <- app_assoc.
Qed.

Lemma parse_places_Raise (ns : option string) (l : list ET.Element)
    (pl : gmap Py.key Place) (place : ET.Element) (e : exn) :
  place ∈ l → initial_marking ns place = Raise e →
  ∃ e', foldM (parse_place ns) pl l = Raise e'.
Proof.
  intros Hin He. revert pl. induction l as [|q l IH]; intros pl.
  - by apply elem_of_nil in Hin.
  - simpl. destruct (parse_place ns pl q) as [pl'|e'] eqn:Hq; simpl; [|eauto].
    apply elem_of_cons in Hin as [->|Hin]; [|by apply IH].
    unfold parse_place in Hq. by rewrite He in Hq.
Qed.

Lemma initial_marking_Raise (ns : option string) (place : ET.Element) (e : exn) :
  initial_marking ns place = Raise e → e = ValueError.
Proof.
  unfold initial_marking. repeat case_match; try done.
  unfold Py.int. repeat case_match; try done; by intros [= <-].
Qed.

Lemma parse_places_Raise_ValueError (ns : option string) (l : list ET.Element)
    (pl : gmap Py.key Place) (e : exn) :
  foldM (parse_place ns) pl l = Raise e → e = ValueError.
Proof.
  revert pl. induction l as [|q l IH]; intros pl; simpl; [done|].
  destruct (parse_place ns pl q) as [pl'|e'] eqn:Hq; simpl; [apply IH|].
  intros [= <-]. unfold parse_place in Hq.
  destruct (initial_marking ns q) as [m|e''] eqn:Hm; simpl in Hq; [done|].
  injection Hq as <-. by eapply initial_marking_Raise.
Qed.

Lemma parse_places_lookup (ns : option string) (l : list ET.Element)
    (pl pl' : gmap Py.key Place) (k : Py.key) :
  foldM (parse_place ns) pl l = Ok pl' →
  Forall (λ q, ET.get q "id" ≠ k) l → pl' !! k = pl !! k.
Proof.
  revert pl. induction l as [|q l IH]; intros pl; simpl.
  - by intros [= <-].
  - intros H [Hq Hl]%Forall_cons. inv_bind H as pl1 Hpl1.
    rewrite (IH _ H Hl). unfold parse_place in Hpl1.
    inv_bind Hpl1 as m Hm. injection Hpl1 as <-. by rewrite lookup_insert_ne.
Qed.

Lemma parse_places_total (ns : option string) (l : list ET.Element) (pl : gmap Py.key Place) :
  Forall (λ q, ∃ m, initial_marking ns q = Ok m) l →
  ∃ pl', foldM (parse_place ns) pl l = Ok pl'.
Proof.
  intros Hl. revert pl. induction Hl as [|q l [m Hm] Hl IH]; intros pl; [by eexists|].
  assert (∃ pl1, parse_place ns pl q = Ok pl1) as [pl1 Hpl1].
  { unfold parse_place. rewrite Hm. by eexists. }
  cbn [foldM]. rewrite Hpl1. apply IH.
Qed.

(** ** Loading into an object that already holds a net *)

(** [_build_relationships] reads nothing but the places, the transitions
    and the arcs. *)
Lemma build_relationships_ext (s1 s2 : PetriNet) :
  places s1 = places s2 → transitions s1 = transitions s2 → arcs s1 = arcs s2 →
  _build_relationships s1 = _build_relationships s2.
Proof.
  destruct s1, s2. simpl. by intros -> -> ->.
Qed.

Lemma dom_parse_transitions (l : list ET.Element) (tr : gmap Py.key Transition) :
  dom (fold_left parse_transition l tr) =
  dom (fold_left parse_transition l (∅ : gmap Py.key Transition)) ∪ dom tr.
Proof. by rewrite parse_transitions_union, dom_union_L. Qed.

Lemma parse_places_dom (ns : option string) (l : list ET.Element)
    (pl pl' : gmap Py.key Place) (k : Py.key) :
  foldM (parse_place ns) pl l = Ok pl' →
  is_Some (pl' !! k) → is_Some (pl !! k) ∨ ∃ q, q ∈ l ∧ ET.get q "id" = k.
Proof.
  revert pl. induction l as [|q l IH]; intros pl; simpl.
  - intros [= <-]. auto.
  - intros H Hk. inv_bind H as pl1 Hpl1.
    destruct (IH _ H Hk) as [Hk1|(q' & Hq' & <-)].
    + unfold parse_place in Hpl1. inv_bind Hpl1 as m Hm. injection Hpl1 as <-.
      destruct (decide (ET.get q "id" = k)) as [<-|Hne].
      * right. exists q. split; [left|done].
      * left. by rewrite lookup_insert_ne in Hk1.
    + right. exists q'. split; [by right|done].
Qed.

Lemma parse_transitions_dom (l : list ET.Element) (tr : gmap Py.key Transition) (k : Py.key) :
  is_Some (fold_left parse_transition l tr !! k) →
  is_Some (tr !! k) ∨ ∃ q, q ∈ l ∧ ET.get q "id" = k.
Proof.
  revert tr. induction l as [|q l IH]; intros tr; simpl; [auto|].
  intros Hk. destruct (IH _ Hk) as [Hk1|(q' & Hq' & <-)].
  - unfold parse_transition in Hk1.
    destruct (decide (ET.get q "id" = k)) as [<-|Hne].
    + right. exists q. split; [left|done].
    + left. by rewrite lookup_insert_ne in Hk1.
  - right. exists q'. split; [by right|done].
Qed.

Lemma parse_places_dom_2 (ns : option string) (l : list ET.Element)
    (pl pl' : gmap Py.key Place) (k : Py.key) :
  foldM (parse_place ns) pl l = Ok pl' →
  is_Some (pl !! k) ∨ (∃ q, q ∈ l ∧ ET.get q "id" = k) → is_Some (pl' !! k).
Proof.
  revert pl. induction l as [|q l IH]; intros pl; simpl.
  - intros [= <-] [?|(q & Hq & _)]; [done|]. by apply elem_of_nil in Hq.
  - intros H Hk. inv_bind H as pl1 Hpl1. apply (IH _ H).
    unfold parse_place in Hpl1. inv_bind Hpl1 as m Hm. injection Hpl1 as <-.
    destruct Hk as [Hk|(q' & Hq' & <-)].
    + left. rewrite lookup_insert. case_decide; [by eexists|done].
    + apply elem_of_cons in Hq' as [->|Hq'].
      * left. rewrite lookup_insert_eq. by eexists.
      * right. eauto.
Qed.

Lemma parse_transitions_dom_2 (l : list ET.Element) (tr : gmap Py.key Transition)
    (k : Py.key) :
  is_Some (tr !! k) ∨ (∃ q, q ∈ l ∧ ET.get q "id" = k) →
  is_Some (fold_left parse_transition l tr !! k).
Proof.
  revert tr. induction l as [|q l IH]; intros tr; simpl.
  - intros [?|(q & Hq & _)]; [done|]. by apply elem_of_nil in Hq.
  - intros Hk. apply IH. unfold parse_transition.
    destruct Hk as [Hk|(q' & Hq' & <-)].
    + left. rewrite lookup_insert. case_decide; [by eexists|done].
    + apply elem_of_cons in Hq' as [->|Hq'].
      * left. rewrite lookup_insert_eq. by eexists.
      * right. eauto.
Qed.

(** The place stored under the identifier of a place element is the one
    read from the last element that carries this identifier. *)
Lemma parse_places_last (ns : option string) (before after : list ET.Element)
    (place : ET.Element) (pl pl' : gmap Py.key Place) :
  foldM (parse_place ns) pl (before ++ place :: after) = Ok pl' →
  Forall (λ q, ET.get q "id" ≠ ET.get place "id") after →
  ∃ m, initial_marking ns place = Ok m ∧
       pl' !! ET.get place "id" = Some {| p_id := ET.get place "id"; token := m |}.
Proof.
  intros Hpl Hafter. rewrite foldM_app in Hpl. inv_bind Hpl as pl1 Hpl1.
  cbn [foldM] in Hpl. inv_bind Hpl as pl2 Hpl2.
  unfold parse_place in Hpl2. inv_bind Hpl2 as m Hm. injection Hpl2 as <-.
  exists m. split; [done|].
  rewrite (parse_places_lookup _ _ _ _ _ Hpl Hafter). apply lookup_insert_eq.
Qed.

(** C2, as amended: [load_from_pnml] adds what it finds in the document to
    what the object holds, and discards nothing.  What it finds are the
    elements that [find_all] returns for [place], [transition] and [arc].
    After a load that returned true, the arcs are the arcs the object had
    followed by one arc for each arc element found, in the order of the
    document; the identifiers of the transitions are those the object had
    and the [id]s of the transition elements found, and likewise for the
    places; an identifier that no place element found carries keeps the
    place it had, and the identifier of a place element found holds the
    place read from the last element found with this identifier.  On an
    object without places, transitions and arcs, the arcs and the
    identifiers of the places and of the transitions are exactly those of
    the elements found. *)
Theorem load_from_pnml_accumulates (self self' : PetriNet) (root : ET.Element) :
  load_from_pnml self (ET.Parsed root) = Ok (true, self') →
  let found := find_all (namespace_of root) root in
  let arc_of := λ arc, {| arc_id := ET.get arc "id"; source := ET.get arc "source";
                          target := ET.get arc "target" |} in
  arcs self' = (arcs self ++ (arc_of <$> found "arc"))%list ∧
  (∀ k, is_Some (transitions self' !! k) ↔
        is_Some (transitions self !! k) ∨ ∃ q, q ∈ found "transition" ∧ ET.get q "id" = k) ∧
  (∀ k, is_Some (places self' !! k) ↔
        is_Some (places self !! k) ∨ ∃ q, q ∈ found "place" ∧ ET.get q "id" = k) ∧
  (∀ k, Forall (λ q, ET.get q "id" ≠ k) (found "place") → places self' !! k = places self !! k) ∧
  (∀ before place after,
     found "place" = (before ++ place :: after)%list →
     Forall (λ q, ET.get q "id" ≠ ET.get place "id") after →
     ∃ m, initial_marking (namespace_of root) place = Ok m ∧
          places self' !! ET.get place "id" =
          Some {| p_id := ET.get place "id"; token := m |}) ∧
  (places self = ∅ → transitions self = ∅ → arcs self = [] →
     arcs self' = arc_of <$> found "arc" ∧
     (∀ k, is_Some (transitions self' !! k) ↔
           ∃ q, q ∈ found "transition" ∧ ET.get q "id" = k) ∧
     (∀ k, is_Some (places self' !! k) ↔ ∃ q, q ∈ found "place" ∧ ET.get q "id" = k)).
Proof.
  intros (? & pl & [= <-] & Hpl & Hb)%load_from_pnml_true found arc_of.
  assert (arcs self' = (arcs self ++ (arc_of <$> found "arc"))%list) as Harcs.
  { rewrite (built_arcs _ _ Hb). simpl. apply parse_arcs_app. }
  assert (∀ k, is_Some (transitions self' !! k) ↔
               is_Some (transitions self !! k) ∨
               ∃ q, q ∈ found "transition" ∧ ET.get q "id" = k) as Htr.
  { intros k. rewrite (built_transitions _ _ Hb), <- elem_of_dom, relink_dom, elem_of_dom.
    simpl. split; [apply parse_transitions_dom|apply parse_transitions_dom_2]. }
  assert (∀ k, is_Some (places self' !! k) ↔
               is_Some (places self !! k) ∨ ∃ q, q ∈ found "place" ∧ ET.get q "id" = k) as Hp.
  { intros k. rewrite (built_places _ _ Hb). simpl.
    split; [exact (parse_places_dom _ _ _ _ _ Hpl)|exact (parse_places_dom_2 _ _ _ _ _ Hpl)]. }
  split; [exact Harcs|]. split; [exact Htr|]. split; [exact Hp|]. split; [|split].
  - intros k Hk. rewrite (built_places _ _ Hb). simpl.
    exact (parse_places_lookup _ _ _ _ _ Hpl Hk).
  - intros before place after Hall Hafter. rewrite (built_places _ _ Hb). simpl.
    unfold found in Hall. rewrite Hall in Hpl. by eapply parse_places_last.
  - intros Hp0 Ht0 Ha0. rewrite Ha0 in Harcs. split; [exact Harcs|]. split; intros k.
    + rewrite Htr, Ht0, lookup_empty. split; [|by right].
      intros [[? Hx]|?]; [done|done].
    + rewrite Hp, Hp0, lookup_empty. split; [|by right].
      intros [[? Hx]|?]; [done|done].
Qed.

Lemma load_from_pnml_accumulates_witness :
  arcs net_A_then_E =
  (arcs net_A ++
   ((λ arc, {| arc_id := ET.get arc "id"; source := ET.get arc "source";
               target := ET.get arc "target" |})
      <$> find_all (namespace_of (scenario_E qualified)) (scenario_E qualified) "arc"))%list.
Proof.
  apply (load_from_pnml_accumulates net_A net_A_then_E (scenario_E qualified)).
  vm_compute. reflexivity.
Defined.

(** C2 as stated fails: scenario E loaded into the object that holds
    scenario A leaves the place [p2] and the two arcs of scenario A in
    place, whereas scenario E on its own has one place and two arcs. *)
Lemma load_keeps_previous_net :
  load_from_pnml __init__ (ET.Parsed (scenario_A qualified)) = Ok (true, net_A) ∧
  load_from_pnml net_A (ET.Parsed (scenario_E qualified)) = Ok (true, net_A_then_E) ∧
  load_from_pnml __init__ (ET.Parsed (scenario_E qualified)) = Ok (true, net_E) ∧
  places net_A_then_E ≠ places net_E ∧
  transitions net_A_then_E ≠ transitions net_E ∧
  arcs net_A_then_E ≠ arcs net_E.
Proof.
  split; [vm_compute; reflexivity|]. split; [vm_compute; reflexivity|].
  split; [vm_compute; reflexivity|]. split; [|split].
  - intros H. apply (f_equal (λ m, m !! Some "p2")) in H. vm_compute in H. discriminate.
  - intros H. apply (f_equal (λ m, m !! Some "t1")) in H. vm_compute in H. discriminate.
  - discriminate.
Qed.

(** ** Initial markings *)

(** The load returns true as soon as every marking can be read and every
    place and transition carries an identifier. *)
Lemma load_from_pnml_total (self : PetriNet) (root : ET.Element) :
  let ns := namespace_of root in
  Forall (λ q, ∃ m, initial_marking ns q = Ok m) (find_all ns root "place") →
  Forall (λ q, is_Some (ET.get q "id")) (find_all ns root "place") →
  Forall (λ q, is_Some (ET.get q "id")) (find_all ns root "transition") →
  None ∉ keys (places self) → None ∉ keys (transitions self) →
  ∃ self', load_from_pnml self (ET.Parsed root) = Ok (true, self').
Proof.
  intros ns Hm Hp Ht Hsp Hst.
  destruct (parse_places_total ns _ (places self) Hm) as [pl Hpl].
  destruct (proj2 (build_relationships_sortable (parsed self root pl))) as [self' Hb].
  { rewrite elem_of_keys in Hsp. rewrite elem_of_keys in Hst.
    rewrite Forall_forall in Hp, Ht.
    split; left; rewrite elem_of_keys; simpl; fold ns.
    - intros [?|(q & Hq & Hid)]%(parse_places_dom _ _ _ _ _ Hpl); [done|].
      specialize (Hp q Hq). rewrite Hid in Hp. by destruct Hp.
    - intros [?|(q & Hq & Hid)]%parse_transitions_dom; [done|].
      specialize (Ht q Hq). rewrite Hid in Ht. by destruct Ht. }
  exists self'. apply load_from_pnml_true. by exists root, pl.
Qed.

(** [initial_marking] hands the marking text to [int], and is 0 without
    one. *)
Lemma initial_marking_text (ns : option string) (place : ET.Element) :
  initial_marking ns place =
  match marking_text ns place with
  | Some s => Py.int s
  | None => Ok 0
  end.
Proof.
  unfold initial_marking, marking_text. repeat case_match; congruence.
Qed.

(** C3, as amended: a place without [initialMarking], without the [text]
    element in it, or with an empty text gets the marking 0, and a text of
    "5" gives 5; any other text is handed to [int] (whose model is [Py.int]
    on text with [isascii]).  When the load returns true, the place stored
    under an identifier carries the marking of the last place element with
    that identifier, and the load returns true as soon as every marking can
    be read and every place and transition has an identifier.  A text with
    [isascii] that [int] rejects makes the load raise [ValueError]. *)
Theorem initial_marking_default :
  (∀ ns place,
     find_one ns place "initialMarking" = None → initial_marking ns place = Ok 0) ∧
  (∀ ns place marking_tag,
     find_one ns place "initialMarking" = Some marking_tag →
     find_one ns marking_tag "text" = None → initial_marking ns place = Ok 0) ∧
  (∀ ns place marking_tag text_tag,
     find_one ns place "initialMarking" = Some marking_tag →
     find_one ns marking_tag "text" = Some text_tag →
     (ET.text text_tag = None ∨ ET.text text_tag = Some "" → initial_marking ns place = Ok 0) ∧
     (ET.text text_tag = Some "5" → initial_marking ns place = Ok 5) ∧
     (∀ s, ET.text text_tag = Some s → s ≠ "" → Py.isascii s = true →
           marking_text ns place = Some s ∧ initial_marking ns place = Py.int s)) ∧
  (∀ self root self' before place after,
     load_from_pnml self (ET.Parsed root) = Ok (true, self') →
     find_all (namespace_of root) root "place" = (before ++ place :: after)%list →
     Forall (λ q, ET.get q "id" ≠ ET.get place "id") after →
     ∃ m, initial_marking (namespace_of root) place = Ok m ∧
          places self' !! ET.get place "id" = Some {| p_id := ET.get place "id"; token := m |}) ∧
  (∀ self root,
     Forall (λ q, ∃ m, initial_marking (namespace_of root) q = Ok m)
            (find_all (namespace_of root) root "place") →
     Forall (λ q, is_Some (ET.get q "id")) (find_all (namespace_of root) root "place") →
     Forall (λ q, is_Some (ET.get q "id")) (find_all (namespace_of root) root "transition") →
     None ∉ keys (places self) → None ∉ keys (transitions self) →
     ∃ self', load_from_pnml self (ET.Parsed root) = Ok (true, self')) ∧
  (∀ self root place s e,
     place ∈ find_all (namespace_of root) root "place" →
     marking_text (namespace_of root) place = Some s →
     Py.isascii s = true → Py.int s = Raise e →
     load_from_pnml self (ET.Parsed root) = Raise ValueError).
Proof.
  split; [|split; [|split; [|split; [|split]]]].
  - intros ns place H. unfold initial_marking. by rewrite H.
  - intros ns place marking_tag H1 H2. unfold initial_marking. by rewrite H1, H2.
  - intros ns place marking_tag text_tag H1 H2.
    unfold initial_marking, marking_text. rewrite H1, H2.
    split; [|split].
    + by intros [-> | ->].
    + by intros ->.
    + intros s -> Hs _. by rewrite !decide_False by done.
  - intros self root self' before place after
      (? & pl & [= <-] & Hpl & Hb)%load_from_pnml_true Hall Hafter.
    rewrite (built_places _ _ Hb). simpl. rewrite Hall in Hpl. by eapply parse_places_last.
  - intros self root. apply load_from_pnml_total.
  - intros self root place s e Hin Hs _ He. simpl.
    assert (initial_marking (namespace_of root) place = Raise e) as Hm.
    { by rewrite initial_marking_text, Hs. }
    destruct (parse_places_Raise _ _ (places self) _ _ Hin Hm) as [e' He'].
    rewrite He'. simpl. by rewrite (parse_places_Raise_ValueError _ _ _ _ He').
Qed.

Lemma initial_marking_default_witness :
  load_from_pnml __init__ (ET.Parsed (scenario_D qualified)) = Ok (true, net_D) ∧
  ∃ m, initial_marking (namespace_of (scenario_D qualified)) (place_elem qualified "p2" None)
       = Ok m ∧
       places net_D !! ET.get (place_elem qualified "p2" None) "id"
       = Some {| p_id := ET.get (place_elem qualified "p2" None) "id"; token := m |}.
Proof.
  split; [vm_compute; reflexivity|].
  apply (proj1 (proj2 (proj2 (proj2 initial_marking_default)))
           __init__ (scenario_D qualified) net_D
           [place_elem qualified "p1" (Some "5")] (place_elem qualified "p2" None)
           [place_elem qualified "p3" (Some "")]).
  - vm_compute. reflexivity.
  - vm_compute. reflexivity.
  - repeat constructor. vm_compute. discriminate.
Defined.

(** C3 as stated fails: a marking text that is not a number is an error,
    the load raises [ValueError] instead of storing the marking 0. *)
Lemma non_numeric_marking_raises :
  load_from_pnml __init__ (ET.Parsed (scenario_non_numeric qualified)) = Raise ValueError.
Proof. vm_compute. reflexivity. Qed.

(** [int] accepts as many digits as [sys.int_info.default_max_str_digits]
    and refuses one more. *)
Example int_digit_limit :
  Py.int (Fmt.repeat "0" 4299 +:+ "7") = Ok 7 ∧
  Py.int (Fmt.repeat "0" 4300 +:+ "7") = Raise ValueError.
Proof. split; vm_compute; reflexivity. Qed.

(** ** Strings *)

Lemma string_app_cons (c : ascii) (a b : string) : String c a +:+ b = String c (a +:+ b).
Proof. done. Qed.

Lemma string_app_nil (b : string) : "" +:+ b = b.
Proof. done. Qed.

Lemma string_app_assoc (a b c : string) : (a +:+ b) +:+ c = a +:+ (b +:+ c).
Proof.
  induction a as [|x a IH]; [done|].
  change (String x ((a +:+ b) +:+ c) = String x (a +:+ (b +:+ c))). by rewrite IH.
Qed.

Lemma list_ascii_of_app (a b : string) :
  list_ascii_of_string (a +:+ b) = (list_ascii_of_string a ++ list_ascii_of_string b)%list.
Proof.
  induction a as [|c a IH]; [done|].
  rewrite string_app_cons. cbn [list_ascii_of_string app]. by rewrite IH.
Qed.

Lemma list_ascii_of_rev_app (s1 s2 : string) :
  list_ascii_of_string (String.rev_app s1 s2) =
  (reverse (list_ascii_of_string s1) ++ list_ascii_of_string s2)%list.
Proof.
  revert s2. induction s1 as [|a s1 IH]; intros s2; simpl; [done|].
  by rewrite IH, reverse_cons, <- app_assoc.
Qed.

Lemma list_ascii_of_rev (s : string) :
  list_ascii_of_string (String.rev s) = reverse (list_ascii_of_string s).
Proof. unfold String.rev. by rewrite list_ascii_of_rev_app, app_nil_r. Qed.

Lemma list_ascii_of_inj (a b : string) :
  list_ascii_of_string a = list_ascii_of_string b → a = b.
Proof.
  intros H. rewrite <- (string_of_list_ascii_of_string a), H.
  apply string_of_list_ascii_of_string.
Qed.

Lemma rev_rev (s : string) : String.rev (String.rev s) = s.
Proof.
  apply list_ascii_of_inj. by rewrite !list_ascii_of_rev, reverse_involutive.
Qed.

Lemma rev_app_distr (a b : string) :
  String.rev (a +:+ b) = String.rev b +:+ String.rev a.
Proof.
  apply list_ascii_of_inj.
  by rewrite list_ascii_of_rev, !list_ascii_of_app, !list_ascii_of_rev, reverse_app.
Qed.

(** ** [split] and [strip] *)

Lemma split_cons (sep : ascii) (s : string) : ∃ piece pieces, Py.split sep s = piece :: pieces.
Proof.
  induction s as [|c s (piece & pieces & IH)]; simpl; [eauto|].
  case_decide; [eauto|]. rewrite IH. eauto.
Qed.

Lemma split_until (sep : ascii) (s rest : string) :
  sep ∉ list_ascii_of_string s →
  Py.split sep (s +:+ String sep rest) = s :: Py.split sep rest.
Proof.
  induction s as [|c s IH]; simpl; intros Hs.
  - by rewrite decide_True.
  - apply not_elem_of_cons in Hs as [Hc Hs].
    rewrite decide_False by done.
    change (String.append s (String sep rest)) with (s +:+ String sep rest).
    by rewrite (IH Hs).
Qed.

Lemma split_whole (sep : ascii) (s : string) :
  sep ∉ list_ascii_of_string s → Py.split sep s = [s].
Proof.
  induction s as [|c s IH]; simpl; intros Hs; [done|].
  apply not_elem_of_cons in Hs as [Hc Hs].
  rewrite decide_False by done. by rewrite (IH Hs).
Qed.

(** The first piece holds no separator. *)
Lemma split_first (sep : ascii) (s piece : string) (pieces : list string) :
  Py.split sep s = piece :: pieces → sep ∉ list_ascii_of_string piece.
Proof.
  revert piece pieces. induction s as [|c s IH]; intros piece pieces; simpl.
  - intros [= <- _]. apply not_elem_of_nil.
  - case_decide as Hc.
    + intros [= <- _]. apply not_elem_of_nil.
    + destruct (split_cons sep s) as (piece' & pieces' & Hs). rewrite Hs.
      intros [= <- _]. cbn [list_ascii_of_string]. apply not_elem_of_cons.
      split; [done|]. by eapply IH.
Qed.

Lemma lstrip_id (c : ascii) (s : string) :
  c ∉ list_ascii_of_string s → Py.lstrip c s = s.
Proof.
  destruct s as [|a s]; simpl; [done|]. intros [Ha _]%not_elem_of_cons.
  by rewrite decide_False.
Qed.

Lemma strip_id (c : ascii) (s : string) :
  c ∉ list_ascii_of_string s → Py.strip c s = s.
Proof.
  intros Hs. unfold Py.strip. rewrite (lstrip_id c s Hs), lstrip_id, rev_rev; [done|].
  by rewrite list_ascii_of_rev, elem_of_reverse.
Qed.

Lemma elem_of_lstrip (c x : ascii) (s : string) :
  x ∈ list_ascii_of_string (Py.lstrip c s) → x ∈ list_ascii_of_string s.
Proof.
  induction s as [|a s IH]; simpl; [done|].
  case_decide; [|done]. intros Hx. right. by apply IH.
Qed.

Lemma elem_of_strip (c x : ascii) (s : string) :
  x ∈ list_ascii_of_string (Py.strip c s) → x ∈ list_ascii_of_string s.
Proof.
  unfold Py.strip. rewrite list_ascii_of_rev, elem_of_reverse.
  intros Hx%elem_of_lstrip. rewrite list_ascii_of_rev, elem_of_reverse in Hx.
  by apply elem_of_lstrip in Hx.
Qed.

(** ** The namespace of the root and the tags of a search *)

(** [split] always returns a first piece: the [except IndexError] branch of
    [load_from_pnml] is never taken and [ns] is never empty. *)
Lemma namespace_of_is_Some (root : ET.Element) : is_Some (namespace_of root).
Proof.
  unfold namespace_of.
  destruct (split_cons "}" (ET.tag root)) as (piece & pieces & ->). simpl. eauto.
Qed.

Lemma namespace_of_no_close (root : ET.Element) (uri : string) :
  namespace_of root = Some uri → "}"%char ∉ list_ascii_of_string uri.
Proof.
  unfold namespace_of.
  destruct (split_cons "}" (ET.tag root)) as (piece & pieces & Hs). rewrite Hs. simpl.
  intros [= <-] Hin%elem_of_strip. by apply (split_first _ _ _ _ Hs).
Qed.

(** The tag of a root without namespace is taken as the namespace. *)
Lemma namespace_of_plain (root : ET.Element) :
  plain_name (ET.tag root) →
  namespace_of root = Some (ET.tag root) ∧ literal_namespace (ET.tag root).
Proof.
  intros [Hne Hall]. rewrite Forall_forall in Hall. split; [|split; [done|]].
  - unfold namespace_of. rewrite split_whole by (intros Hin; by apply Hall in Hin as (_ & ? & _)).
    simpl. f_equal. apply strip_id. intros Hin. by apply Hall in Hin as (? & _).
  - intros Heq. rewrite Heq in Hall.
    by destruct (Hall "*"%char) as (_ & _ & ?); [left|].
Qed.

Lemma qname_cons (uri name : string) :
  ET.qname uri name = String "{" (uri +:+ String "}" name).
Proof. done. Qed.

Lemma rev_qname (uri name : string) :
  String.rev (ET.qname uri name) = String.rev name +:+ String "}" (String.rev uri +:+ "{").
Proof.
  unfold ET.qname.
  change ("{" +:+ uri +:+ "}" +:+ name) with ("{" +:+ (uri +:+ ("}" +:+ name))).
  rewrite !rev_app_distr. by rewrite !string_app_assoc.
Qed.

Lemma startswith_qname_star (uri name : string) :
  "}"%char ∉ list_ascii_of_string uri →
  Py.startswith (ET.qname uri name) "{*}" = bool_decide (uri = "*").
Proof.
  intros Hclose. rewrite qname_cons.
  destruct uri as [|c [|d uri]]; rewrite ?string_app_cons, ?string_app_nil;
    cbn [Py.startswith].
  - done.
  - rewrite decide_True by done. case_decide as Hc; [by subst|].
    rewrite bool_decide_eq_false_2; [done|]. by intros [= ->].
  - rewrite decide_True by done.
    case_decide as Hc; [|rewrite bool_decide_eq_false_2; [done|by intros [= ->]]].
    case_decide as Hd; [|by rewrite bool_decide_eq_false_2].
    exfalso. apply Hclose. subst. cbn. set_solver.
Qed.

Lemma endswith_qname_star (uri name : string) :
  Py.endswith name "*" = false → Py.endswith (ET.qname uri name) "}*" = false.
Proof.
  unfold Py.endswith. rewrite rev_qname. intros Hname.
  change (String.rev "*") with "*" in Hname. change (String.rev "}*") with "*}".
  destruct (String.rev name) as [|c r]; rewrite ?string_app_cons, ?string_app_nil;
    cbn [Py.startswith] in *; [done|].
  by case_decide.
Qed.

Lemma startswith_qname_empty (uri name : string) :
  "}"%char ∉ list_ascii_of_string uri →
  Py.startswith (ET.qname uri name) "{}" = bool_decide (uri = "").
Proof.
  intros Hclose. rewrite qname_cons.
  destruct uri as [|c uri]; rewrite ?string_app_cons, ?string_app_nil; cbn [Py.startswith].
  - by rewrite !decide_True.
  - rewrite decide_True by done.
    case_decide as Hc; [|by rewrite bool_decide_eq_false_2].
    exfalso. apply Hclose. subst. cbn. set_solver.
Qed.

(** How a search reads the tag [{uri}name], for a name that does not end
    with a star. *)
Lemma selects_qname (uri name el_tag : string) :
  "}"%char ∉ list_ascii_of_string uri → Py.endswith name "*" = false →
  ET.selects (ET.qname uri name) el_tag =
  if decide (uri = "*") then bool_decide (el_tag = name) || Py.endswith el_tag (String "}" name)
  else if decide (uri = "") then bool_decide (el_tag = name)
  else bool_decide (el_tag = ET.qname uri name).
Proof.
  intros Hclose Hname. unfold ET.selects, ET.is_wildcard_tag.
  rewrite startswith_qname_star, endswith_qname_star, startswith_qname_empty by done.
  rewrite orb_false_r.
  destruct (decide (uri = "*")) as [->|Hstar].
  - rewrite bool_decide_eq_true_2 by done.
    change (ET.qname "*" name) with (String "{" (String "*" (String "}" name))).
    rewrite decide_False; [|intros [= Hn]; by rewrite Hn in Hname].
    by rewrite decide_False.
  - rewrite bool_decide_eq_false_2 by done.
    destruct (decide (uri = "")) as [->|Hempty].
    + change (ET.qname "" name) with (String "{" (String "}" name)).
      by rewrite decide_False.
    + rewrite (bool_decide_eq_false_2 (uri = "")) by done.
      rewrite decide_False; [done|]. by rewrite qname_cons.
Qed.

Lemma searched_name (name : string) : name ∈ searched → Py.endswith name "*" = false.
Proof.
  unfold searched. intros H.
  repeat (apply elem_of_cons in H as [->|H]; [done|]). by apply elem_of_nil in H.
Qed.

(** Under a literal namespace, [find_all] returns the descendants with the
    tag [{uri}name]. *)
Lemma find_all_literal (uri : string) (node : ET.Element) (name : string) :
  "}"%char ∉ list_ascii_of_string uri → literal_namespace uri →
  Py.endswith name "*" = false →
  find_all (Some uri) node name =
  filter (λ d, ET.tag d = ET.qname uri name) (flat_map ET.iter (ET.children node)).
Proof.
  intros Hclose [Hempty Hstar] Hname. unfold find_all, ET.findall_descendants.
  apply list_filter_iff. intros d. rewrite selects_qname by done.
  rewrite !decide_False by done. apply bool_decide_eq_true.
Qed.

(** Under the namespace [*], it returns the descendants named [name] in
    any namespace or in none. *)
Lemma find_all_star (node : ET.Element) (name : string) :
  Py.endswith name "*" = false →
  find_all (Some "*") node name =
  filter (λ d, ET.tag d = name ∨ Py.endswith (ET.tag d) (String "}" name) = true)
         (flat_map ET.iter (ET.children node)).
Proof.
  intros Hname. unfold find_all, ET.findall_descendants.
  apply list_filter_iff. intros d.
  assert ("}"%char ∉ list_ascii_of_string "*") as Hclose
    by (apply (bool_decide_unpack _); by vm_compute).
  rewrite selects_qname by done.
  rewrite decide_True by done. by rewrite orb_true_iff, bool_decide_eq_true.
Qed.

(** Under the empty namespace, it returns the descendants named [name] in
    no namespace. *)
Lemma find_all_empty (node : ET.Element) (name : string) :
  Py.endswith name "*" = false →
  find_all (Some "") node name =
  filter (λ d, ET.tag d = name) (flat_map ET.iter (ET.children node)).
Proof.
  intros Hname. unfold find_all, ET.findall_descendants.
  apply list_filter_iff. intros d.
  rewrite selects_qname by (done || apply not_elem_of_nil).
  rewrite decide_False by done. rewrite decide_True by done. apply bool_decide_eq_true.
Qed.

(** ** Documents without a namespace *)

Lemma find_all_unqualified (root : ET.Element) (uri tag_name : string) :
  namespace_of root = Some uri → literal_namespace uri → tag_name ∈ searched →
  Forall unqualified_tag (flat_map ET.iter (ET.children root)) →
  find_all (namespace_of root) root tag_name = [].
Proof.
  intros Hns Hlit Hname%searched_name Hroot.
  rewrite Hns, find_all_literal by eauto using namespace_of_no_close.
  induction Hroot as [|e l He Hl IH]; [done|].
  rewrite filter_cons_False; [done|]. rewrite qname_cons. apply He.
Qed.

Lemma load_unqualified (root : ET.Element) (uri : string) :
  namespace_of root = Some uri → literal_namespace uri →
  Forall unqualified_tag (flat_map ET.iter (ET.children root)) →
  load_from_pnml __init__ (ET.Parsed root) = Ok (true, __init__).
Proof.
  intros Hns Hlit Hroot. simpl.
  rewrite !(find_all_unqualified root uri) by (done || (unfold searched; set_solver)).
  done.
Qed.

(** C6, where the code departs from it: a document without namespace loads
    as the empty net, because the prefix map is built from the tag of the
    root even when that tag carries no namespace; the same document with a
    namespace loads as the net it describes.  The elements without
    namespace are lost whenever the namespace taken from the root is
    compared literally, which it is for every root whose tag is a name
    without namespace. *)
Theorem unqualified_document_is_lost :
  (∀ root uri,
     namespace_of root = Some uri → literal_namespace uri →
     Forall unqualified_tag (flat_map ET.iter (ET.children root)) →
     load_from_pnml __init__ (ET.Parsed root) = Ok (true, __init__)) ∧
  (∀ root,
     plain_name (ET.tag root) →
     Forall unqualified_tag (flat_map ET.iter (ET.children root)) →
     load_from_pnml __init__ (ET.Parsed root) = Ok (true, __init__)) ∧
  load_from_pnml __init__ (ET.Parsed (scenario_A unqualified)) = Ok (true, __init__) ∧
  load_from_pnml __init__ (ET.Parsed (scenario_A qualified)) = Ok (true, net_A) ∧
  check_consistency __init__ = (false, [no_place; no_transition]).
Proof.
  split; [|split; [|split; [|split]]]; [| |vm_compute; reflexivity..].
  - apply load_unqualified.
  - intros root [Hns Hlit]%namespace_of_plain Hroot. by eapply load_unqualified.
Qed.

Lemma unqualified_document_is_lost_witness :
  plain_name (ET.tag (scenario_A unqualified)) ∧
  Forall unqualified_tag (flat_map ET.iter (ET.children (scenario_A unqualified))) ∧
  load_from_pnml __init__ (ET.Parsed (scenario_A unqualified)) = Ok (true, __init__).
Proof.
  assert (plain_name (ET.tag (scenario_A unqualified))) as Hname
    by (apply (bool_decide_unpack _); by vm_compute).
  assert (Forall unqualified_tag (flat_map ET.iter (ET.children (scenario_A unqualified))))
    as H by (repeat constructor; intros s; simpl; discriminate).
  split; [exact Hname|]. split; [exact H|].
  exact (proj1 (proj2 unqualified_document_is_lost) (scenario_A unqualified) Hname H).
Defined.

(** A root in the namespace [*], or in a namespace that [strip] empties,
    makes the searches wildcards: the elements without namespace are then
    found. *)
Example wildcard_namespace_finds_unqualified :
  load_from_pnml __init__
    (ET.Parsed (ET.Elem (ET.qname "*" "pnml") [] None (ET.children (scenario_A unqualified))))
  = Ok (true, net_A) ∧
  load_from_pnml __init__
    (ET.Parsed (ET.Elem (ET.qname "{" "pnml") [] None (ET.children (scenario_A unqualified))))
  = Ok (true, net_A).
Proof. split; vm_compute; reflexivity. Qed.

(** * Further properties *)

(** ** Presets and postsets in closed form *)

Lemma contains_dom {V W : Type} (d : gmap Py.key V) (d' : gmap Py.key W) (k : Py.key) :
  dom d = dom d' → contains d k = contains d' k.
Proof.
  intros Hdom. unfold contains. apply bool_decide_ext.
  by rewrite <- !elem_of_dom, Hdom.
Qed.

Lemma input_arc_dom (pl : gmap Py.key Place) (tr tr' : gmap Py.key Transition) (arc : Arc) :
  dom tr = dom tr' → input_arc pl tr arc = input_arc pl tr' arc.
Proof. intros H. unfold input_arc. by rewrite (contains_dom tr tr'). Qed.

Lemma output_arc_dom (pl : gmap Py.key Place) (tr tr' : gmap Py.key Transition) (arc : Arc) :
  dom tr = dom tr' → output_arc pl tr arc = output_arc pl tr' arc.
Proof.
  intros H. unfold output_arc.
  by rewrite (input_arc_dom pl tr tr'), (contains_dom tr tr').
Qed.

Lemma inputs_of_dom (pl : gmap Py.key Place) (tr tr' : gmap Py.key Transition)
    (t : Py.key) (l : list Arc) :
  dom tr = dom tr' → inputs_of pl tr t l = inputs_of pl tr' t l.
Proof.
  intros H. unfold inputs_of. f_equal. apply list_filter_iff.
  intros arc. by rewrite (input_arc_dom pl tr tr').
Qed.

Lemma outputs_of_dom (pl : gmap Py.key Place) (tr tr' : gmap Py.key Transition)
    (t : Py.key) (l : list Arc) :
  dom tr = dom tr' → outputs_of pl tr t l = outputs_of pl tr' t l.
Proof.
  intros H. unfold outputs_of. f_equal. apply list_filter_iff.
  intros arc. by rewrite (output_arc_dom pl tr tr').
Qed.

(** [link] in terms of the two tests. *)
Lemma link_cases (pl : gmap Py.key Place) (tr : gmap Py.key Transition) (arc : Arc) :
  link pl tr arc =
  if input_arc pl tr arc then alter (add_preset (source arc)) (target arc) tr
  else if output_arc pl tr arc then alter (add_postset (target arc)) (source arc) tr
  else tr.
Proof.
  unfold link, output_arc, input_arc.
  destruct (contains pl (source arc) && contains tr (target arc)); [done|]. simpl.
  by destruct (contains tr (source arc) && contains pl (target arc)).
Qed.

Lemma fold_link_lookup (pl : gmap Py.key Place) (l : list Arc)
    (tr : gmap Py.key Transition) (t : Py.key) :
  fold_left (link pl) l tr !! t =
  extend (inputs_of pl tr t l) (outputs_of pl tr t l) <$> tr !! t.
Proof.
  revert tr. induction l as [|arc l IH]; intros tr.
  - simpl. destruct (tr !! t) as [[]|]; simpl; [|done].
    unfold extend. simpl. by rewrite !app_nil_r.
  - cbn [fold_left]. rewrite IH.
    rewrite (inputs_of_dom pl (link pl tr arc) tr), (outputs_of_dom pl (link pl tr arc) tr)
      by apply link_dom.
    unfold inputs_of, outputs_of. rewrite !filter_cons, link_cases.
    destruct (input_arc pl tr arc) eqn:Hin.
    + assert (output_arc pl tr arc = false) as Hout by (unfold output_arc; by rewrite Hin).
      rewrite Hout, lookup_alter.
      rewrite (decide_False (P := false = true ∧ _)) by (by intros [? _]).
      destruct (decide (target arc = t)) as [->|Hne].
      * rewrite decide_True by done.
        destruct (tr !! t) as [[]|]; simpl; [|done].
        unfold extend, add_preset. simpl. by rewrite <- app_assoc.
      * rewrite decide_False by (by intros [_ ?]). done.
    + rewrite (decide_False (P := false = true ∧ _)) by (by intros [? _]).
      destruct (output_arc pl tr arc) eqn:Hout.
      * rewrite lookup_alter.
        destruct (decide (source arc = t)) as [->|Hne].
        -- rewrite decide_True by done.
           destruct (tr !! t) as [[]|]; simpl; [|done].
           unfold extend, add_postset. simpl. by rewrite <- app_assoc.
        -- rewrite decide_False by (by intros [_ ?]). done.
      * rewrite decide_False by (by intros [? _]). done.
Qed.

Lemma relink_lookup (self : PetriNet) (t : Py.key) :
  relink self !! t =
  (λ td, {| t_id := t_id td;
            preset := inputs_of (places self) (transitions self) t (arcs self);
            postset := outputs_of (places self) (transitions self) t (arcs self) |})
    <$> transitions self !! t.
Proof.
  unfold relink. rewrite fold_link_lookup, lookup_fmap.
  rewrite (inputs_of_dom _ (reset <$> transitions self) (transitions self)),
          (outputs_of_dom _ (reset <$> transitions self) (transitions self))
    by apply dom_fmap_L.
  by destruct (transitions self !! t).
Qed.

(** X1: after the relationship builder, the preset of a transition [t] is
    the list of the sources of the arcs that lead from a place to [t], and
    its postset the list of the targets of the arcs that lead from [t] to a
    place and were not taken as input arcs, both in the order of the arcs
    and with repetitions; the identifier stored in the transition is the
    one it had. *)
Theorem preset_postset_closed_form (self self' : PetriNet) (t : Py.key) (td : Transition) :
  _build_relationships self = Ok self' →
  transitions self' !! t = Some td →
  (∃ td0, transitions self !! t = Some td0 ∧ t_id td = t_id td0) ∧
  preset td =
    source <$> filter (λ arc, is_Some (places self' !! source arc) ∧ target arc = t)
                      (arcs self') ∧
  postset td =
    target <$> filter (λ arc, source arc = t ∧ is_Some (places self' !! target arc) ∧
                              ¬ (is_Some (places self' !! t) ∧
                                 is_Some (transitions self' !! target arc)))
                      (arcs self').
Proof.
  intros Hb Htd.
  assert (∀ k, is_Some (transitions self' !! k) ↔ is_Some (transitions self !! k)) as Hdom.
  { intros k. by rewrite (built_transitions _ _ Hb), <- !elem_of_dom, relink_dom. }
  rewrite (built_places _ _ Hb), (built_arcs _ _ Hb).
  rewrite (built_transitions _ _ Hb), relink_lookup in Htd.
  destruct (transitions self !! t) as [td0|] eqn:Htd0; simpl in Htd; [|done].
  injection Htd as <-. simpl. split; [by eexists|].
  unfold inputs_of, outputs_of. split; f_equal; apply list_filter_iff; intros arc.
  - unfold input_arc. rewrite andb_true_iff, !contains_true. split.
    + by intros [[? _] ?].
    + intros [? ->]. by rewrite Htd0.
  - unfold output_arc, input_arc.
    rewrite !andb_true_iff, negb_true_iff, andb_false_iff, <- !not_true_iff_false,
      !contains_true, Hdom.
    split.
    + intros [[[Hn ?] ?] Heq]. rewrite Heq in Hn. tauto.
    + intros (Heq & ? & Hn). rewrite Heq. split; [|done]. split; [|done].
      split; [|by rewrite Htd0].
      destruct (decide (is_Some (places self !! t))); [right|left]; tauto.
Qed.

Lemma preset_postset_closed_form_witness :
  preset {| t_id := Some "t1"; preset := [Some "p1"]; postset := [Some "p2"] |} =
    source <$> filter (λ arc, is_Some (places net_A !! source arc) ∧ target arc = Some "t1")
                      (arcs net_A).
Proof.
  refine (proj1 (proj2 (preset_postset_closed_form raw_A net_A (Some "t1")
                   {| t_id := Some "t1"; preset := [Some "p1"]; postset := [Some "p2"] |}
                   _ _))); vm_compute; reflexivity.
Defined.

(** ** Arcs that the relationship builder skips *)

Lemma fold_link_skip (pl : gmap Py.key Place) (tr : gmap Py.key Transition)
    (l1 l2 : list Arc) (arc : Arc) :
  input_arc pl tr arc = false → output_arc pl tr arc = false →
  fold_left (link pl) (l1 ++ arc :: l2) tr = fold_left (link pl) (l1 ++ l2) tr.
Proof.
  intros Hin Hout. rewrite !fold_left_app. cbn [fold_left]. f_equal.
  rewrite link_cases.
  rewrite (input_arc_dom pl _ tr), (output_arc_dom pl _ tr) by apply fold_link_dom.
  by rewrite Hin, Hout.
Qed.

(** X2: an arc that leads neither from a place to a transition nor from a
    transition to a place (an end is unknown or missing, or both ends are of
    one kind) has no effect on the relationship builder: with the arc
    removed from the list the builder produces the same object, but for the
    list of arcs itself, and raises in the same cases. *)
Theorem build_relationships_skips_arc (self : PetriNet) (l1 l2 : list Arc) (arc : Arc) :
  ¬ (is_Some (places self !! source arc) ∧ is_Some (transitions self !! target arc)) →
  ¬ (is_Some (transitions self !! source arc) ∧ is_Some (places self !! target arc)) →
  _build_relationships (with_arcs self (l1 ++ l2)) =
  (s ← _build_relationships (with_arcs self (l1 ++ arc :: l2)); Ok (with_arcs s (l1 ++ l2))).
Proof.
  intros Hin Hout.
  assert (input_arc (places self) (reset <$> transitions self) arc = false) as Hin'.
  { rewrite (input_arc_dom _ _ (transitions self)) by apply dom_fmap_L.
    apply not_true_iff_false. unfold input_arc.
    by rewrite andb_true_iff, !contains_true. }
  assert (output_arc (places self) (reset <$> transitions self) arc = false) as Hout'.
  { rewrite (output_arc_dom _ _ (transitions self)) by apply dom_fmap_L.
    apply not_true_iff_false. unfold output_arc.
    rewrite !andb_true_iff, !contains_true. tauto. }
  unfold _build_relationships. simpl.
  destruct (Py.sorted (keys (places self))) as [pids|e] eqn:Hp; simpl; [|done].
  destruct (Py.sorted (keys (transitions self))) as [tids|e] eqn:Ht; simpl; [|done].
  rewrite (fold_link_skip _ _ l1 l2 arc Hin' Hout').
  change (_generate_incidence_matrix (relinked (with_arcs self (l1 ++ l2)) pids tids) =
          _generate_incidence_matrix
            (with_arcs (relinked (with_arcs self (l1 ++ l2)) pids tids) (l1 ++ arc :: l2))
          ≫= λ s, Ok (with_arcs s (l1 ++ l2))).
  pose proof (relinked_buildable (with_arcs self (l1 ++ l2)) pids tids Hp Ht) as Hb.
  rewrite (generate_incidence_matrix_spec _ Hb).
  by rewrite (generate_incidence_matrix_spec (with_arcs _ (l1 ++ arc :: l2)) Hb).
Qed.

Lemma build_relationships_skips_arc_witness :
  _build_relationships (with_arcs net_A ([arc_of "a1" "p1" "t1"] ++ [arc_of "a2" "t1" "p2"])) =
  (s ← _build_relationships
         (with_arcs net_A ([arc_of "a1" "p1" "t1"] ++ arc_of "a9" "p9" "t1"
                           :: [arc_of "a2" "t1" "p2"]));
   Ok (with_arcs s ([arc_of "a1" "p1" "t1"] ++ [arc_of "a2" "t1" "p2"]))).
Proof.
  apply (build_relationships_skips_arc net_A); vm_compute; intros [[x Hx] _]; discriminate.
Defined.

(** ** The consistency check and the relationship builder *)

(** X3: the consistency check gives the same answer and the same list of
    defects before and after the relationship builder has run. *)
Theorem check_consistency_after_build (self self' : PetriNet) :
  _build_relationships self = Ok self' →
  check_consistency self' = check_consistency self.
Proof.
  intros Hb. unfold check_consistency, all_nodes.
  rewrite (built_places _ _ Hb), (built_arcs _ _ Hb), (built_transitions _ _ Hb), relink_dom.
  assert (relink self = ∅ ↔ transitions self = ∅) as Hempty.
  { by rewrite <- !(dom_empty_iff_L (D := gset Py.key)), relink_dom. }
  destruct (decide (relink self = ∅)) as [H1|H1],
           (decide (transitions self = ∅)) as [H2|H2]; tauto || done.
Qed.

Lemma check_consistency_after_build_witness :
  check_consistency net_A = check_consistency raw_A.
Proof.
  apply (check_consistency_after_build raw_A net_A). vm_compute. reflexivity.
Defined.

(** X4: the order of the arcs decides the order of the defects and nothing
    else: with the arcs permuted the check returns the same boolean and a
    permutation of the same defects. *)
Theorem check_consistency_arc_order (self : PetriNet) (l : list Arc) :
  arcs self ≡ₚ l →
  (check_consistency (with_arcs self l)).1 = (check_consistency self).1 ∧
  (check_consistency (with_arcs self l)).2 ≡ₚ (check_consistency self).2.
Proof.
  intros Hperm.
  assert ((check_consistency (with_arcs self l)).2 ≡ₚ (check_consistency self).2) as Herr.
  { rewrite !check_consistency_errors. apply Permutation_app; [done|].
    apply Permutation_flat_map. by symmetry. }
  split; [|done]. rewrite !check_consistency_result. apply bool_decide_ext.
  split; intros Hnil; rewrite Hnil in Herr.
  - symmetry in Herr. by apply Permutation_nil_r in Herr.
  - by apply Permutation_nil_r in Herr.
Qed.

Lemma check_consistency_arc_order_witness :
  (check_consistency (with_arcs net_A [arc_of "a2" "t1" "p2"; arc_of "a1" "p1" "t1"])).1
  = (check_consistency net_A).1 ∧
  (check_consistency (with_arcs net_A [arc_of "a2" "t1" "p2"; arc_of "a1" "p1" "t1"])).2
  ≡ₚ (check_consistency net_A).2.
Proof.
  apply (check_consistency_arc_order net_A). simpl. apply Permutation_swap.
Defined.

(** ** When the matrix builder raises *)

Lemma bump_all_outcome (ids : list Py.key) (d : Z) (t_idx : nat)
    (l : list Py.key) (m : list (list Z)) :
  match bump_all ids d t_idx m l with
  | Ok _ => Forall (λ p, p ∈ ids) l
  | Raise e => e = ValueError ∧ ∃ p, p ∈ l ∧ p ∉ ids
  end.
Proof.
  unfold bump_all. revert m. induction l as [|x l IH]; intros m; simpl; [done|].
  destruct (Py.index ids x) as [i|e] eqn:Hx; simpl.
  - specialize (IH (bump d i t_idx m)).
    destruct (foldM _ (bump d i t_idx m) l) as [m'|e].
    + constructor; [|done]. apply index_Ok in Hx. by eapply list_elem_of_lookup_2.
    + destruct IH as (-> & p & Hp & Hnp). split; [done|]. exists p. split; [by right|done].
  - apply index_Raise in Hx as [-> Hx]. split; [done|]. exists x. split; [left|done].
Qed.

Lemma column_outcome (self : PetriNet) (t_idx : nat) (t : Py.key) (m : list (list Z)) :
  match column self m (t_idx, t) with
  | Ok _ => ∃ td, transitions self !! t = Some td ∧
                  Forall (λ p, p ∈ place_ids self) (preset td ++ postset td)
  | Raise e =>
      (e = KeyError ∧ transitions self !! t = None) ∨
      (e = ValueError ∧ ∃ td p, transitions self !! t = Some td ∧
                                p ∈ (preset td ++ postset td)%list ∧ p ∉ place_ids self)
  end.
Proof.
  unfold column. destruct (transitions self !! t) as [td|] eqn:Htd; simpl; [|by left].
  pose proof (bump_all_outcome (place_ids self) (-1) t_idx (preset td) m) as Hpre.
  destruct (bump_all (place_ids self) (-1) t_idx m (preset td)) as [m1|e]; simpl.
  - pose proof (bump_all_outcome (place_ids self) 1 t_idx (postset td) m1) as Hpost.
    destruct (bump_all (place_ids self) 1 t_idx m1 (postset td)) as [m2|e].
    + exists td. split; [done|]. by apply Forall_app.
    + destruct Hpost as (-> & p & Hp & Hnp). right. split; [done|].
      exists td, p. rewrite elem_of_app. auto.
  - destruct Hpre as (-> & p & Hp & Hnp). right. split; [done|].
    exists td, p. rewrite elem_of_app. auto.
Qed.

Lemma columns_outcome (self : PetriNet) (ts : list Py.key) (k : nat) (m : list (list Z)) :
  match foldM (column self) m (enumerate_from k ts) with
  | Ok _ => Forall (λ t, ∃ td, transitions self !! t = Some td ∧
                               Forall (λ p, p ∈ place_ids self) (preset td ++ postset td)) ts
  | Raise e =>
      (e = KeyError ∧ ∃ t, t ∈ ts ∧ transitions self !! t = None) ∨
      (e = ValueError ∧ ∃ t td p, t ∈ ts ∧ transitions self !! t = Some td ∧
                                  p ∈ (preset td ++ postset td)%list ∧ p ∉ place_ids self)
  end.
Proof.
  revert k m. induction ts as [|t ts IH]; intros k m; [by constructor|].
  cbn [enumerate_from foldM].
  pose proof (column_outcome self k t m) as Hc.
  destruct (column self m (k, t)) as [m1|e]; simpl.
  - specialize (IH (S k) m1).
    destruct (foldM (column self) m1 (enumerate_from (S k) ts)) as [m2|e].
    + by constructor.
    + destruct IH as [(-> & t' & Ht' & Hnone)|(-> & t' & td & p & Ht' & Hrest)].
      * left. split; [done|]. exists t'. split; [by right|done].
      * right. split; [done|]. exists t', td, p. split; [by right|done].
  - destruct Hc as [[-> Hnone]|(-> & td & p & Hrest)].
    + left. split; [done|]. exists t. split; [left|done].
    + right. split; [done|]. exists t, td, p. split; [left|done].
Qed.

(** X5: the matrix builder returns exactly when every entry of
    [transition_ids] is a key of [transitions] and every entry of the presets
    and postsets of those transitions is in [place_ids].  Otherwise it
    raises [KeyError], for an entry of [transition_ids] that is no key, or
    [ValueError], for a preset or postset entry that is not in [place_ids];
    it raises nothing else. *)
Theorem generate_incidence_matrix_outcome (self : PetriNet) :
  ((∃ self', _generate_incidence_matrix self = Ok self') ↔
   Forall (λ t, ∃ td, transitions self !! t = Some td ∧
                      Forall (λ p, p ∈ place_ids self) (preset td ++ postset td))
          (transition_ids self)) ∧
  (∀ e, _generate_incidence_matrix self = Raise e →
     (e = KeyError ∧ ∃ t, t ∈ transition_ids self ∧ transitions self !! t = None) ∨
     (e = ValueError ∧ ∃ t td p, t ∈ transition_ids self ∧ transitions self !! t = Some td ∧
                                 p ∈ (preset td ++ postset td)%list ∧ p ∉ place_ids self)).
Proof.
  unfold _generate_incidence_matrix.
  pose proof (columns_outcome self (transition_ids self) 0
                (replicate (length (place_ids self))
                           (replicate (length (transition_ids self)) 0))) as H.
  destruct (foldM _ _ _) as [m|e0]; simpl.
  - split; [|done]. split; [done|]. eauto.
  - split; [|by intros e [= <-]]. split; [by intros [? ?]|].
    intros Hall. rewrite Forall_forall in Hall. exfalso.
    destruct H as [(_ & t & Ht & Hnone)|(_ & t & td & p & Ht & Htd & Hp & Hnp)].
    + destruct (Hall t Ht) as (td & Htd & _). congruence.
    + destruct (Hall t Ht) as (td' & Htd' & Hps). rewrite Forall_forall in Hps.
      apply Hnp, Hps. congruence.
Qed.

Lemma generate_incidence_matrix_outcome_witness :
  (with_transitions raw_A ∅).(transitions) !! Some "t1" = None ∧
  ((KeyError = KeyError ∧
    ∃ t, t ∈ transition_ids (with_transitions net_A ∅) ∧
         transitions (with_transitions net_A ∅) !! t = None) ∨
   (KeyError = ValueError ∧
    ∃ t td p, t ∈ transition_ids (with_transitions net_A ∅) ∧
              transitions (with_transitions net_A ∅) !! t = Some td ∧
              p ∈ (preset td ++ postset td)%list ∧
              p ∉ place_ids (with_transitions net_A ∅))).
Proof.
  split; [vm_compute; reflexivity|].
  apply (proj2 (generate_incidence_matrix_outcome (with_transitions net_A ∅)) KeyError).
  vm_compute. reflexivity.
Defined.

(** ** The outcomes of a load *)

Lemma parse_places_Raise_Exists (ns : option string) (l : list ET.Element)
    (pl : gmap Py.key Place) (e : exn) :
  foldM (parse_place ns) pl l = Raise e →
  Exists (λ q, initial_marking ns q = Raise e) l.
Proof.
  revert pl. induction l as [|q l IH]; intros pl; simpl; [done|].
  destruct (parse_place ns pl q) as [pl'|e'] eqn:Hq; simpl.
  - intros H. right. by eapply IH.
  - intros [= <-]. left. unfold parse_place in Hq.
    destruct (initial_marking ns q) as [m|e'']; simpl in Hq; [done|].
    by injection Hq as <-.
Qed.

Lemma parse_places_Ok_Forall (ns : option string) (l : list ET.Element)
    (pl pl' : gmap Py.key Place) :
  foldM (parse_place ns) pl l = Ok pl' →
  Forall (λ q, ∃ m, initial_marking ns q = Ok m) l.
Proof.
  revert pl. induction l as [|q l IH]; intros pl; simpl; [by constructor|].
  intros H. inv_bind H as pl1 Hpl1. constructor; [|by eapply IH].
  unfold parse_place in Hpl1. inv_bind Hpl1 as m Hm. eauto.
Qed.

(** X6: [load_from_pnml] returns false only when the document cannot be
    parsed, and leaves the object as it was.  On a document whose marking
    texts have [isascii], it raises only [ValueError], when the marking
    text of some place is rejected by [int], or [TypeError], when all
    markings are read and some place or transition, of the document or
    already in the object, has no identifier. *)
Theorem load_from_pnml_outcomes (self : PetriNet) :
  (∀ file self', load_from_pnml self file = Ok (false, self') ↔
                 file = ET.ParseError ∧ self' = self) ∧
  (∀ root e,
     Forall (λ q, ascii_marking (namespace_of root) q = true)
            (find_all (namespace_of root) root "place") →
     load_from_pnml self (ET.Parsed root) = Raise e →
     (e = ValueError ∧
      Exists (λ q, ∃ s, marking_text (namespace_of root) q = Some s ∧
                        Py.isascii s = true ∧ Py.int s = Raise ValueError)
             (find_all (namespace_of root) root "place")) ∨
     (e = TypeError ∧
      Forall (λ q, ∃ m, initial_marking (namespace_of root) q = Ok m)
             (find_all (namespace_of root) root "place") ∧
      (is_Some (places self !! None) ∨ is_Some (transitions self !! None) ∨
       Exists (λ q, ET.get q "id" = None) (find_all (namespace_of root) root "place") ∨
       Exists (λ q, ET.get q "id" = None)
              (find_all (namespace_of root) root "transition")))).
Proof.
  split.
  - intros file self'. destruct file as [|root]; simpl.
    + split; [by intros [= <-]|by intros [_ ->]].
    + split; [|by intros [? _]].
      destruct (foldM _ _ _) as [pl|e]; simpl; [|done].
      by destruct (_build_relationships _).
  - intros root e Hascii. simpl.
    set (ns := namespace_of root) in *.
    destruct (foldM (parse_place ns) (places self) (find_all ns root "place"))
      as [pl|e0] eqn:Hpl; simpl.
    + destruct (_build_relationships _) as [s|e1] eqn:Hb; simpl; [done|].
      intros [= <-]. right.
      destruct (build_relationships_Raise _ _ Hb) as [-> Hnone]. split; [done|].
      split; [by eapply parse_places_Ok_Forall|]. simpl in Hnone.
      destruct Hnone as [[Hnone _]|[Hnone _]]; apply elem_of_keys in Hnone.
      * destruct (parse_places_dom _ _ _ _ _ Hpl Hnone) as [?|(q & Hq & Hid)]; [auto|].
        right. right. left. apply Exists_exists. eauto.
      * destruct (parse_transitions_dom _ _ _ Hnone) as [?|(q & Hq & Hid)]; [auto|].
        right. right. right. apply Exists_exists. eauto.
    + intros [= <-]. left.
      pose proof (parse_places_Raise_ValueError _ _ _ _ Hpl) as ->.
      split; [done|].
      apply parse_places_Raise_Exists, Exists_exists in Hpl as (q & Hq & Hm).
      apply Exists_exists. exists q. split; [done|].
      rewrite Forall_forall in Hascii. specialize (Hascii q Hq).
      unfold ascii_marking in Hascii. rewrite initial_marking_text in Hm.
      destruct (marking_text ns q) as [s|]; [|done]. exists s. by repeat split.
Qed.

Lemma load_from_pnml_outcomes_witness :
  (ValueError = ValueError ∧
   Exists (λ q, ∃ s, marking_text (namespace_of (scenario_non_numeric qualified)) q = Some s ∧
                     Py.isascii s = true ∧ Py.int s = Raise ValueError)
          (find_all (namespace_of (scenario_non_numeric qualified))
                    (scenario_non_numeric qualified) "place")) ∨
  (ValueError = TypeError ∧
   Forall (λ q, ∃ m, initial_marking (namespace_of (scenario_non_numeric qualified)) q = Ok m)
          (find_all (namespace_of (scenario_non_numeric qualified))
                    (scenario_non_numeric qualified) "place") ∧
   (is_Some (places __init__ !! None) ∨ is_Some (transitions __init__ !! None) ∨
    Exists (λ q, ET.get q "id" = None)
           (find_all (namespace_of (scenario_non_numeric qualified))
                     (scenario_non_numeric qualified) "place") ∨
    Exists (λ q, ET.get q "id" = None)
           (find_all (namespace_of (scenario_non_numeric qualified))
                     (scenario_non_numeric qualified) "transition"))).
Proof.
  apply (proj2 (load_from_pnml_outcomes __init__) (scenario_non_numeric qualified) ValueError).
  - apply (bool_decide_unpack _). by vm_compute.
  - vm_compute. reflexivity.
Defined.

(** X7: after a load that returned true, [place_ids] holds exactly the
    identifiers of the places the object had and the [id]s of the place
    elements that [find_all] returned, and [transition_ids] those of the
    transitions the object had and of the transition elements that
    [find_all] returned; an element without [id] contributes [None]. *)
Theorem loaded_identifiers (self self' : PetriNet) (root : ET.Element) :
  load_from_pnml self (ET.Parsed root) = Ok (true, self') →
  (∀ k, k ∈ place_ids self' ↔
        is_Some (places self !! k) ∨
        ∃ q, q ∈ find_all (namespace_of root) root "place" ∧ ET.get q "id" = k) ∧
  (∀ k, k ∈ transition_ids self' ↔
        is_Some (transitions self !! k) ∨
        ∃ q, q ∈ find_all (namespace_of root) root "transition" ∧ ET.get q "id" = k).
Proof.
  intros (? & pl & [= <-] & Hpl & Hb)%load_from_pnml_true.
  destruct (built_place_ids _ _ Hb) as (_ & _ & Hp).
  destruct (built_transition_ids _ _ Hb) as (_ & _ & Ht).
  split; intros k.
  - rewrite Hp, (built_places _ _ Hb). simpl. split.
    + exact (parse_places_dom _ _ _ _ _ Hpl).
    + exact (parse_places_dom_2 _ _ _ _ _ Hpl).
  - rewrite Ht, (built_transitions _ _ Hb), <- elem_of_dom, relink_dom, elem_of_dom. simpl.
    split.
    + apply parse_transitions_dom.
    + apply parse_transitions_dom_2.
Qed.

Lemma loaded_identifiers_witness :
  (∀ k, k ∈ place_ids net_A ↔
        is_Some (places __init__ !! k) ∨
        ∃ q, q ∈ find_all (namespace_of (scenario_A qualified)) (scenario_A qualified) "place"
             ∧ ET.get q "id" = k) ∧
  (∀ k, k ∈ transition_ids net_A ↔
        is_Some (transitions __init__ !! k) ∨
        ∃ q, q ∈ find_all (namespace_of (scenario_A qualified)) (scenario_A qualified)
                          "transition"
             ∧ ET.get q "id" = k).
Proof.
  apply (loaded_identifiers __init__ net_A (scenario_A qualified)). vm_compute. reflexivity.
Defined.

(** X8: a load that returned true has appended one arc for each arc
    element that [find_all] returned, in the order of the document and
    after the arcs the object had, each with the [id], [source] and [target]
    attributes of its element ([None] for a missing one); none of these
    elements is left out, whatever its ends. *)
Theorem loaded_arcs (self self' : PetriNet) (root : ET.Element) :
  load_from_pnml self (ET.Parsed root) = Ok (true, self') →
  arcs self' =
  (arcs self ++
   ((λ arc, {| arc_id := ET.get arc "id"; source := ET.get arc "source";
               target := ET.get arc "target" |})
      <$> find_all (namespace_of root) root "arc"))%list.
Proof.
  intros (? & pl & [= <-] & Hpl & Hb)%load_from_pnml_true.
  rewrite (built_arcs _ _ Hb). simpl. apply parse_arcs_app.
Qed.

Lemma loaded_arcs_witness :
  arcs net_A_then_E =
  (arcs net_A ++
   ((λ arc, {| arc_id := ET.get arc "id"; source := ET.get arc "source";
               target := ET.get arc "target" |})
      <$> find_all (namespace_of (scenario_E qualified)) (scenario_E qualified) "arc"))%list.
Proof.
  apply (loaded_arcs net_A net_A_then_E (scenario_E qualified)). vm_compute. reflexivity.
Defined.

(** ** The matrix as a function of the arcs *)

Lemma inputs_of_ext (pl pl' : gmap Py.key Place) (tr tr' : gmap Py.key Transition)
    (t : Py.key) (l : list Arc) :
  dom pl = dom pl' → dom tr = dom tr' → inputs_of pl tr t l = inputs_of pl' tr' t l.
Proof.
  intros Hp Ht. unfold inputs_of. f_equal. apply list_filter_iff. intros arc.
  unfold input_arc. by rewrite (contains_dom pl pl'), (contains_dom tr tr').
Qed.

Lemma outputs_of_ext (pl pl' : gmap Py.key Place) (tr tr' : gmap Py.key Transition)
    (t : Py.key) (l : list Arc) :
  dom pl = dom pl' → dom tr = dom tr' → outputs_of pl tr t l = outputs_of pl' tr' t l.
Proof.
  intros Hp Ht. unfold outputs_of. f_equal. apply list_filter_iff. intros arc.
  unfold output_arc, input_arc.
  by rewrite !(contains_dom pl pl') by done; rewrite !(contains_dom tr tr') by done.
Qed.

Lemma arc_weight_ext (pl pl' : gmap Py.key Place) (tr tr' : gmap Py.key Transition)
    (p t : Py.key) (l : list Arc) :
  dom pl = dom pl' → dom tr = dom tr' → arc_weight pl tr p t l = arc_weight pl' tr' p t l.
Proof.
  intros Hp Ht. unfold arc_weight.
  by rewrite (inputs_of_ext pl pl' tr tr'), (outputs_of_ext pl pl' tr tr').
Qed.

Lemma inputs_of_app (pl : gmap Py.key Place) (tr : gmap Py.key Transition)
    (t : Py.key) (l1 l2 : list Arc) :
  inputs_of pl tr t (l1 ++ l2) = (inputs_of pl tr t l1 ++ inputs_of pl tr t l2)%list.
Proof. unfold inputs_of. by rewrite filter_app, fmap_app. Qed.

Lemma outputs_of_app (pl : gmap Py.key Place) (tr : gmap Py.key Transition)
    (t : Py.key) (l1 l2 : list Arc) :
  outputs_of pl tr t (l1 ++ l2) = (outputs_of pl tr t l1 ++ outputs_of pl tr t l2)%list.
Proof. unfold outputs_of. by rewrite filter_app, fmap_app. Qed.

Lemma occurrences_app (p : Py.key) (l1 l2 : list Py.key) :
  occurrences p (l1 ++ l2) = (occurrences p l1 + occurrences p l2)%nat.
Proof. unfold occurrences. by rewrite filter_app, length_app. Qed.

Lemma arc_weight_app (pl : gmap Py.key Place) (tr : gmap Py.key Transition)
    (p t : Py.key) (l1 l2 : list Arc) :
  arc_weight pl tr p t (l1 ++ l2) = arc_weight pl tr p t l1 + arc_weight pl tr p t l2.
Proof.
  unfold arc_weight. rewrite inputs_of_app, outputs_of_app, !occurrences_app. lia.
Qed.

Lemma weight_of_relinked (self : PetriNet) (pids tids : list Py.key) (p t : Py.key) :
  weight_of (relinked self pids tids) p t =
  if contains (transitions self) t
  then arc_weight (places self) (transitions self) p t (arcs self)
  else 0.
Proof.
  unfold weight_of, contains. simpl. rewrite relink_lookup.
  by destruct (transitions self !! t) as [td|].
Qed.

Lemma zip_with_fmap_diag {A B C D} (f : B → C → D) (g : A → B) (h : A → C) (l : list A) :
  zip_with f (g <$> l) (h <$> l) = (λ x, f (g x) (h x)) <$> l.
Proof. induction l as [|x l IH]; [done|]. cbn. by f_equal. Qed.

Lemma incidence_relinked (self : PetriNet) (pids tids : list Py.key) :
  incidence (relinked self pids tids) =
  arc_matrix (places self) (transitions self) (arcs self) pids tids.
Proof.
  unfold incidence, arc_matrix. simpl.
  apply list_fmap_ext. intros _ p _. apply list_fmap_ext. intros _ t _.
  apply weight_of_relinked.
Qed.

Lemma arc_matrix_ext (pl pl' : gmap Py.key Place) (tr tr' : gmap Py.key Transition)
    (l : list Arc) (pids tids : list Py.key) :
  dom pl = dom pl' → dom tr = dom tr' →
  arc_matrix pl tr l pids tids = arc_matrix pl' tr' l pids tids.
Proof.
  intros Hp Ht. unfold arc_matrix.
  apply list_fmap_ext. intros _ p _. apply list_fmap_ext. intros _ t _.
  by rewrite (contains_dom tr tr'), (arc_weight_ext pl pl' tr tr').
Qed.

Lemma arc_matrix_app (pl : gmap Py.key Place) (tr : gmap Py.key Transition)
    (l1 l2 : list Arc) (pids tids : list Py.key) :
  arc_matrix pl tr (l1 ++ l2) pids tids =
  zip_with (zip_with Z.add) (arc_matrix pl tr l1 pids tids) (arc_matrix pl tr l2 pids tids).
Proof.
  unfold arc_matrix. rewrite zip_with_fmap_diag.
  apply list_fmap_ext. intros _ p _. rewrite zip_with_fmap_diag.
  apply list_fmap_ext. intros _ t _.
  destruct (contains tr t); [apply arc_weight_app|done].
Qed.

(** [_build_relationships] in terms of the arcs. *)
Lemma build_relationships_arcs (self self' : PetriNet) :
  _build_relationships self = Ok self' ↔
  ∃ pids tids,
    Py.sorted (elements (dom (places self))) = Ok pids ∧
    Py.sorted (elements (dom (transitions self))) = Ok tids ∧
    self' = with_matrix (relinked self pids tids)
              (arc_matrix (places self) (transitions self) (arcs self) pids tids).
Proof.
  rewrite build_relationships_Ok. unfold keys.
  split; intros (pids & tids & Hp & Ht & ->); exists pids, tids;
    by rewrite ?incidence_relinked, <- ?incidence_relinked.
Qed.

(** X9: what the relationship builder computes depends on the object only
    through the identifiers of its places, the identifiers of its
    transitions and its arcs.  Two objects that agree on these get the same
    identifier lists and the same matrix, whatever their markings and
    whatever their presets, postsets and matrix held before. *)
Theorem build_relationships_structure (s1 s2 s1' : PetriNet) :
  dom (places s1) = dom (places s2) →
  dom (transitions s1) = dom (transitions s2) →
  arcs s1 = arcs s2 →
  _build_relationships s1 = Ok s1' →
  ∃ s2', _build_relationships s2 = Ok s2' ∧
         place_ids s2' = place_ids s1' ∧
         transition_ids s2' = transition_ids s1' ∧
         incidence_matrix s2' = incidence_matrix s1'.
Proof.
  intros Hp Ht Ha (pids & tids & Hsp & Hst & ->)%build_relationships_arcs.
  eexists. split.
  - apply build_relationships_arcs. exists pids, tids. by rewrite <- Hp, <- Ht.
  - simpl. split; [done|]. split; [done|].
    rewrite Ha. symmetry. by apply arc_matrix_ext.
Qed.

Lemma build_relationships_structure_witness :
  ∃ s2', _build_relationships (with_transitions net_E (transitions raw_A)) = Ok s2' ∧
         place_ids s2' = place_ids net_E ∧
         transition_ids s2' = transition_ids net_E ∧
         incidence_matrix s2' = incidence_matrix net_E.
Proof.
  apply (build_relationships_structure net_E (with_transitions net_E (transitions raw_A)) net_E);
    vm_compute; reflexivity.
Defined.

(** X10: the matrix is additive in the arcs.  For fixed places and
    transitions, the matrix built from the arcs [l1 ++ l2] is the entrywise
    sum of the matrices built from [l1] and from [l2], over the same
    identifier lists. *)
Theorem incidence_matrix_additive (self a b : PetriNet) (l1 l2 : list Arc) :
  _build_relationships (with_arcs self l1) = Ok a →
  _build_relationships (with_arcs self l2) = Ok b →
  ∃ c, _build_relationships (with_arcs self (l1 ++ l2)) = Ok c ∧
       place_ids c = place_ids a ∧ place_ids c = place_ids b ∧
       transition_ids c = transition_ids a ∧ transition_ids c = transition_ids b ∧
       incidence_matrix c =
       zip_with (zip_with Z.add) (incidence_matrix a) (incidence_matrix b).
Proof.
  intros (pids & tids & Hsp & Hst & ->)%build_relationships_arcs
         (pids' & tids' & Hsp' & Hst' & ->)%build_relationships_arcs.
  simpl in *. rewrite Hsp in Hsp'. rewrite Hst in Hst'.
  injection Hsp' as <-. injection Hst' as <-.
  eexists. split; [apply build_relationships_arcs; by exists pids, tids|].
  simpl. repeat (split; [done|]). apply arc_matrix_app.
Qed.

Lemma incidence_matrix_additive_witness :
  ∃ c, _build_relationships (with_arcs net_A (arcs net_A ++ arcs net_A)) = Ok c ∧
       place_ids c = place_ids net_A ∧ place_ids c = place_ids net_A ∧
       transition_ids c = transition_ids net_A ∧ transition_ids c = transition_ids net_A ∧
       incidence_matrix c =
       zip_with (zip_with Z.add) (incidence_matrix net_A) (incidence_matrix net_A).
Proof.
  apply (incidence_matrix_additive net_A net_A net_A (arcs net_A) (arcs net_A));
    vm_compute; reflexivity.
Defined.

(** ** Loading one document twice *)

Lemma zip_with_add_diag (m : list (list Z)) :
  zip_with (zip_with Z.add) m m = (λ row : list Z, Z.mul 2 <$> row) <$> m.
Proof.
  rewrite zip_with_diag. apply list_fmap_ext. intros _ row _.
  rewrite zip_with_diag. apply list_fmap_ext. intros _ v _. lia.
Qed.

(** X11: loading into a new object and then loading the same document
    again into that object returns true, keeps the places and the
    identifier lists, stores every arc twice and doubles every entry of the
    matrix. *)
Theorem load_twice_doubles (root : ET.Element) (s1 : PetriNet) :
  load_from_pnml __init__ (ET.Parsed root) = Ok (true, s1) →
  ∃ s2, load_from_pnml s1 (ET.Parsed root) = Ok (true, s2) ∧
        places s2 = places s1 ∧
        place_ids s2 = place_ids s1 ∧ transition_ids s2 = transition_ids s1 ∧
        arcs s2 = (arcs s1 ++ arcs s1)%list ∧
        incidence_matrix s2 = (λ row : list Z, Z.mul 2 <$> row) <$> incidence_matrix s1.
Proof.
  intros (? & d & [= <-] & Hd & Hb1)%load_from_pnml_true.
  set (ns := namespace_of root) in *. simpl in Hd.
  pose proof Hb1 as (pids & tids & Hsp & Hst & Hs1)%build_relationships_arcs.
  simpl in Hsp, Hst, Hs1. fold ns in Hst, Hs1.
  set (T0 := fold_left parse_transition (find_all ns root "transition") ∅) in *.
  set (A := fold_left parse_arc (find_all ns root "arc") []) in *.
  assert (arcs s1 = A) as HA by (by rewrite Hs1).
  assert (places s1 = d) as Hpl by (by rewrite Hs1).
  assert (dom (transitions s1) = dom T0) as Hdom.
  { rewrite Hs1. simpl. by rewrite relink_dom. }
  assert (fold_left parse_arc (find_all ns root "arc") (arcs s1) = (A ++ A)%list) as HAA.
  { rewrite parse_arcs_app, HA. unfold A. by rewrite parse_arcs_app. }
  assert (dom (fold_left parse_transition (find_all ns root "transition") (transitions s1))
          = dom T0) as Hdom2.
  { rewrite dom_parse_transitions. fold T0. rewrite Hdom. set_solver. }
  eexists. split.
  - apply load_from_pnml_true. exists root, d. split; [done|]. fold ns. split.
    + rewrite Hpl, parse_places_union, Hd. simpl. by rewrite (idemp_L (∪) d).
    + apply build_relationships_arcs. exists pids, tids. simpl. fold ns.
      by rewrite Hdom2.
  - simpl. fold ns. rewrite HAA, HA, Hpl. repeat (split; [by rewrite ?Hs1|]).
    rewrite arc_matrix_app, zip_with_add_diag, Hs1. simpl.
    f_equal. apply arc_matrix_ext; [done|].
    rewrite dom_parse_transitions, relink_dom. simpl. fold ns T0. set_solver.
Qed.

Lemma load_twice_doubles_witness :
  ∃ s2, load_from_pnml net_A (ET.Parsed (scenario_A qualified)) = Ok (true, s2) ∧
        places s2 = places net_A ∧
        place_ids s2 = place_ids net_A ∧ transition_ids s2 = transition_ids net_A ∧
        arcs s2 = (arcs net_A ++ arcs net_A)%list ∧
        incidence_matrix s2 = (λ row : list Z, Z.mul 2 <$> row) <$> incidence_matrix net_A.
Proof.
  apply (load_twice_doubles (scenario_A qualified) net_A). vm_compute. reflexivity.
Defined.

(** ** The namespace of the root *)

(** X12: when the tag of the root is the qualified name [{uri}local] of
    a namespace whose URI holds no brace, the namespace found is [uri].
    For the names that [load_from_pnml] searches, [find_all] then returns,
    in document order: under a literal [uri], the descendants of the root
    whose tag is [{uri}name], and no element of another namespace or of
    none; under the URI [*], the descendants named [name] in any namespace
    or in none; under the empty URI, the descendants named [name] in no
    namespace. *)
Theorem namespace_of_qualified (uri local : string) (attrib : list (string * string))
    (text : option string) (children : list ET.Element) :
  let root := ET.Elem (ET.qname uri local) attrib text children in
  "{"%char ∉ list_ascii_of_string uri → "}"%char ∉ list_ascii_of_string uri →
  namespace_of root = Some uri ∧
  ∀ tag_name, tag_name ∈ searched →
    (literal_namespace uri →
       find_all (namespace_of root) root tag_name =
       filter (λ d, ET.tag d = ET.qname uri tag_name) (flat_map ET.iter children)) ∧
    (uri = "*" →
       find_all (namespace_of root) root tag_name =
       filter (λ d, ET.tag d = tag_name ∨
                    Py.endswith (ET.tag d) (String "}" tag_name) = true)
              (flat_map ET.iter children)) ∧
    (uri = "" →
       find_all (namespace_of root) root tag_name =
       filter (λ d, ET.tag d = tag_name) (flat_map ET.iter children)).
Proof.
  intros root Hopen Hclose.
  assert (namespace_of root = Some uri) as Hns.
  { unfold namespace_of, root.
    change (ET.tag (ET.Elem (ET.qname uri local) attrib text children))
      with (String "{" uri +:+ String "}" local).
    rewrite split_until.
    - cbn [lookup list_lookup]. f_equal. unfold Py.strip.
      cbn [Py.lstrip]. rewrite decide_True by done.
      fold (Py.strip "{" uri). by apply strip_id.
    - cbn [list_ascii_of_string]. apply not_elem_of_cons. split; [done|exact Hclose]. }
  split; [done|]. intros tag_name Hname%searched_name. rewrite Hns.
  split; [|split].
  - intros Hlit. by apply find_all_literal.
  - intros ->. by apply find_all_star.
  - intros ->. by apply find_all_empty.
Qed.

Lemma namespace_of_qualified_witness :
  namespace_of (scenario_A qualified) = Some pnml_uri ∧
  ∀ tag_name, tag_name ∈ searched →
    (literal_namespace pnml_uri →
       find_all (namespace_of (scenario_A qualified)) (scenario_A qualified) tag_name =
       filter (λ d, ET.tag d = ET.qname pnml_uri tag_name)
              (flat_map ET.iter (ET.children (scenario_A qualified)))) ∧
    (pnml_uri = "*" →
       find_all (namespace_of (scenario_A qualified)) (scenario_A qualified) tag_name =
       filter (λ d, ET.tag d = tag_name ∨
                    Py.endswith (ET.tag d) (String "}" tag_name) = true)
              (flat_map ET.iter (ET.children (scenario_A qualified)))) ∧
    (pnml_uri = "" →
       find_all (namespace_of (scenario_A qualified)) (scenario_A qualified) tag_name =
       filter (λ d, ET.tag d = tag_name)
              (flat_map ET.iter (ET.children (scenario_A qualified)))).
Proof.
  apply (namespace_of_qualified pnml_uri "pnml" [] None (ET.children (scenario_A qualified)));
    apply (bool_decide_unpack _); by vm_compute.
Defined.

(** What the searches return in scenario A, and in a document whose root
    is in the namespace [*] while its elements are in another namespace or
    in none. *)
Example find_all_scenario_A :
  find_all (namespace_of (scenario_A qualified)) (scenario_A qualified) "place" =
  [place_elem qualified "p1" (Some "1"); place_elem qualified "p2" (Some "0")] ∧
  find_all (namespace_of (scenario_A qualified)) (scenario_A qualified) "transition" =
  [transition_elem qualified "t1"] ∧
  find_all (namespace_of (scenario_A qualified)) (scenario_A qualified) "arc" =
  [arc_elem qualified "a1" "p1" "t1"; arc_elem qualified "a2" "t1" "p2"].
Proof. repeat split; vm_compute; reflexivity. Qed.

Example find_all_wildcard :
  let other := ET.qname "http://o" in
  let root :=
    ET.Elem (ET.qname "*" "pnml") [] None
      [ET.Elem "net" [] None
         [ET.Elem (other "place") [("id", "po")] None [];
          ET.Elem "place" [("id", "p1")] None
            [ET.Elem (other "initialMarking") [] None [ET.Elem "text" [] (Some "7") []]];
          ET.Elem (other "arc") [("id", "ao"); ("source", "po"); ("target", "p1")] None []]] in
  load_from_pnml __init__ (ET.Parsed root) =
  Ok (true,
      {| places := <[Some "po" := place_of "po" 0]> (<[Some "p1" := place_of "p1" 7]> ∅);
         transitions := ∅;
         arcs := [arc_of "ao" "po" "p1"];
         place_ids := [Some "p1"; Some "po"];
         transition_ids := [];
         incidence_matrix := [[]; []] |}).
Proof. vm_compute. reflexivity. Qed.

(** ** The summary *)

Lemma io_bind_Ok {A B} (m : io A) (f : A → io B) (a : A) :
  outcome m = Ok a → m ≫= f = IO (printed m ++ printed (f a)) (outcome (f a)).
Proof. intros H. unfold mbind, io_bind. by rewrite H. Qed.

Lemma io_bind_Raise {A B} (m : io A) (f : A → io B) (e : exn) :
  outcome m = Raise e → m ≫= f = IO (printed m) (Raise e).
Proof. intros H. unfold mbind, io_bind. by rewrite H. Qed.








Lemma printed_bind_Ok {A B} (m : io A) (f : A → io B) (a : A) :
  outcome m = Ok a → printed (m ≫= f) = (printed m ++ printed (f a))%list.
Proof. intros H. by rewrite (io_bind_Ok _ _ a H). Qed.


(** [print_summary] with its two loop bodies named. *)
Lemma print_summary_unfold (self : PetriNet) :
  print_summary self =
  (print (String newline "=== PETRI NET SUMMARY ===") ;;
   print ("Số lượng Places: " +:+ Fmt.str_nat (size (places self))) ;;
   print ("Số lượng Transitions: " +:+ Fmt.str_nat (size (transitions self))) ;;
   print ("Số lượng Arcs: " +:+ Fmt.str_nat (length (arcs self))) ;;
   print (String newline "--- Initial Marking (M0) ---") ;;
   m0 ← silent (mapM (λ p, pl ← getitem (places self) p; Ok (token pl)) (place_ids self));
   print ("M0 (Vector): " +:+ Fmt.repr_ints m0) ;;
   for_each (place_ids self) (marking_line (places self)) ;;
   print (String newline "--- Incidence Matrix (A) ---") ;;
   columns ← silent (mapM (Fmt.format_key 4) (transition_ids self));
   print (Fmt.rjust 10 "" +:+ " | " +:+ Fmt.join "  " columns) ;;
   print (Fmt.repeat "-" (10 + 6 * length (transition_ids self))) ;;
   for_each (enumerate_from 0 (incidence_matrix self)) (matrix_line (place_ids self))).
Proof. done. Qed.



(** ** The program *)

Lemma for_each_print {A} (l : list A) (f : A → string) :
  for_each l (λ x, print (f x)) = IO (f <$> l) (Ok tt).
Proof.
  induction l as [|x l IH]; [done|].
  cbn [for_each]. rewrite (io_bind_Ok _ _ tt) by done. by rewrite IH.
Qed.

Lemma check_consistency_io_eq (self : PetriNet) :
  check_consistency_io self =
  if (check_consistency self).1
  then IO [String newline "--- [CHECK] Kiểm tra tính nhất quán ---";
           ">> PASSED: Mạng hợp lệ."] (Ok true)
  else IO (String newline "--- [CHECK] Kiểm tra tính nhất quán ---"
           :: ">> FAILED: Phát hiện lỗi:"
           :: ((λ e, "   - " +:+ e) <$> (check_consistency self).2)) (Ok false).
Proof.
  unfold check_consistency_io. destruct (check_consistency self) as [[] errors]; [done|].
  cbn [fst snd]. rewrite (io_bind_Ok (print _) _ tt) by done.
  rewrite (io_bind_Ok (print _) _ tt) by done.
  rewrite for_each_print. cbn. by rewrite app_nil_r.
Qed.

Lemma print_summary_first (self : PetriNet) :
  ∃ rest, printed (print_summary self) = String newline "=== PETRI NET SUMMARY ===" :: rest.
Proof.
  rewrite print_summary_unfold, (printed_bind_Ok (print _) _ tt) by done.
  by eexists.
Qed.

(** X14: the program prints the summary, whose first line is the
    [PETRI NET SUMMARY] banner, exactly when the load returned true and the
    consistency check passed; after a parse failure, a failed check or an
    exception in the load, the banner is not printed. *)
Theorem main_summary_gated (cause : string) (file : ET.parse_result) :
  String newline "=== PETRI NET SUMMARY ===" ∈ printed (main cause file) ↔
  ∃ net, load_from_pnml __init__ file = Ok (true, net) ∧ (check_consistency net).1 = true.
Proof.
  unfold main, load_from_pnml_io. destruct file as [|root].
  - rewrite (io_bind_Ok _ _ (false, __init__)) by done. cbn. split.
    + intros [H|H]%elem_of_cons; [discriminate H|by apply elem_of_nil in H].
    + by intros (net & [= ] & _).
  - destruct (load_from_pnml __init__ (ET.Parsed root)) as [[loaded net]|e] eqn:Hload.
    + assert (loaded = true) as ->.
      { destruct loaded; [done|]. simpl in Hload.
        destruct (foldM _ _ _); simpl in Hload; [|done].
        by destruct (_build_relationships _). }
      rewrite (io_bind_Ok _ _ (true, net)) by done. cbn [silent printed app].
      rewrite check_consistency_io_eq.
      destruct (check_consistency net) as [[] errors] eqn:Hcheck; cbn [fst snd].
      * rewrite (printed_bind_Ok _ _ true) by done. cbn [printed].
        destruct (print_summary_first net) as [rest ->]. split.
        -- intros _. exists net. by rewrite Hcheck.
        -- intros _. set_solver.
      * rewrite (printed_bind_Ok _ _ false) by done. cbn [printed]. split.
        -- rewrite app_nil_r. intros [H|[H|H]%elem_of_cons]%elem_of_cons;
             [discriminate H|discriminate H|].
           apply list_elem_of_fmap in H as (err & H & _). discriminate H.
        -- intros (net' & [= <-] & Hpassed). by rewrite Hcheck in Hpassed.
    + rewrite (io_bind_Raise _ _ e) by done. cbn. split.
      * by intros ?%elem_of_nil.
      * by intros (net & [= ] & _).
Qed.

(** X15: for every document without namespace (the tag of its root is a
    name without namespace and so are the tags of its other elements) the
    program prints the header of the check, the failure line and the two
    defects "no place" and "no transition", prints no summary and ends
    normally, whatever the document contains. *)
Theorem main_unqualified_document (cause : string) (root : ET.Element) :
  plain_name (ET.tag root) →
  Forall unqualified_tag (flat_map ET.iter (ET.children root)) →
  main cause (ET.Parsed root) =
  IO [String newline "--- [CHECK] Kiểm tra tính nhất quán ---";
      ">> FAILED: Phát hiện lỗi:";
      "   - Mạng không có Place nào.";
      "   - Mạng không có Transition nào."] (Ok tt).
Proof.
  intros [Hns Hlit]%namespace_of_plain Hroot.
  pose proof (load_unqualified root _ Hns Hlit Hroot) as Hload.
  unfold main, load_from_pnml_io. rewrite Hload.
  rewrite (io_bind_Ok _ _ (true, __init__)) by done.
  by vm_compute.
Qed.

Lemma main_unqualified_document_witness :
  main "" (ET.Parsed (scenario_A unqualified)) =
  IO [String newline "--- [CHECK] Kiểm tra tính nhất quán ---";
      ">> FAILED: Phát hiện lỗi:";
      "   - Mạng không có Place nào.";
      "   - Mạng không có Transition nào."] (Ok tt).
Proof.
  apply (main_unqualified_document "" (scenario_A unqualified)).
  - apply (bool_decide_unpack _). by vm_compute.
  - repeat constructor; intros s; simpl; discriminate.
Defined.

(** ** Loading and checking *)

Lemma check_consistency_true (self : PetriNet) :
  (check_consistency self).1 = true ↔
  places self ≠ ∅ ∧ transitions self ≠ ∅ ∧
  Forall (λ arc, source arc ∈ all_nodes self ∧ target arc ∈ all_nodes self) (arcs self).
Proof.
  rewrite check_consistency_result, bool_decide_eq_true, check_consistency_errors.
  unfold global_defects. rewrite !app_nil, flat_map_nil. split.
  - intros [[Hp Ht] Harcs]. split; [|split].
    + intros Hp'. by rewrite decide_True in Hp.
    + intros Ht'. by rewrite decide_True in Ht.
    + eapply Forall_impl; [exact Harcs|]. intros arc. by rewrite arc_defects_nil.
  - intros (Hp & Ht & Harcs). rewrite !decide_False by done. repeat split.
    eapply Forall_impl; [exact Harcs|]. intros arc. by rewrite arc_defects_nil.
Qed.

Lemma parse_places_empty (ns : option string) (l : list ET.Element) (d : gmap Py.key Place) :
  foldM (parse_place ns) ∅ l = Ok d → d = ∅ ↔ l = [].
Proof.
  intros Hd. split.
  - intros ->. destruct l as [|q l]; [done|].
    pose proof (parse_places_dom_2 _ _ _ _ (ET.get q "id") Hd) as Hq.
    destruct Hq as [x Hx]; [right; exists q; split; [left|done]|].
    by rewrite lookup_empty in Hx.
  - intros ->. simpl in Hd. by injection Hd as <-.
Qed.

Lemma parse_transitions_empty (l : list ET.Element) :
  fold_left parse_transition l ∅ = ∅ ↔ l = [].
Proof.
  split.
  - intros Hempty. destruct l as [|q l]; [done|].
    pose proof (parse_transitions_dom_2 (q :: l) ∅ (ET.get q "id")) as Hq.
    destruct Hq as [x Hx]; [right; exists q; split; [left|done]|].
    by rewrite Hempty, lookup_empty in Hx.
  - by intros ->.
Qed.

(** X16: for a document loaded into a new object, the consistency check
    passes exactly when [find_all] returned a place element and a
    transition element, and the [source] and the [target] of every arc
    element it returned are each the [id] of some place or transition
    element it returned. *)
Theorem loaded_net_consistent (root : ET.Element) (net : PetriNet) :
  load_from_pnml __init__ (ET.Parsed root) = Ok (true, net) →
  (check_consistency net).1 = true ↔
  find_all (namespace_of root) root "place" ≠ [] ∧
  find_all (namespace_of root) root "transition" ≠ [] ∧
  Forall (λ arc,
            (∃ q, (q ∈ find_all (namespace_of root) root "place" ∨
                   q ∈ find_all (namespace_of root) root "transition") ∧
                  ET.get q "id" = ET.get arc "source") ∧
            (∃ q, (q ∈ find_all (namespace_of root) root "place" ∨
                   q ∈ find_all (namespace_of root) root "transition") ∧
                  ET.get q "id" = ET.get arc "target"))
         (find_all (namespace_of root) root "arc").
Proof.
  intros (? & d & [= <-] & Hd & Hb)%load_from_pnml_true.
  set (ns := namespace_of root) in *. simpl in Hd.
  assert (∀ k, k ∈ all_nodes net ↔
               ∃ q, (q ∈ find_all ns root "place" ∨ q ∈ find_all ns root "transition") ∧
                    ET.get q "id" = k) as Hnodes.
  { intros k. unfold all_nodes.
    rewrite elem_of_union, !elem_of_dom, (built_places _ _ Hb).
    rewrite (built_transitions _ _ Hb), <- (elem_of_dom (relink _)), relink_dom, elem_of_dom.
    simpl. fold ns. split.
    - intros [Hk|Hk].
      + destruct (parse_places_dom _ _ _ _ _ Hd Hk) as [[? Hx]|(q & ? & ?)]; [|by eauto].
        by rewrite lookup_empty in Hx.
      + destruct (parse_transitions_dom _ _ _ Hk) as [[? Hx]|(q & ? & ?)]; [|by eauto].
        by rewrite lookup_empty in Hx.
    - intros (q & [Hq|Hq] & <-).
      + left. apply (parse_places_dom_2 _ _ _ _ _ Hd). eauto.
      + right. apply parse_transitions_dom_2. eauto. }
  rewrite check_consistency_true, (built_places _ _ Hb), (built_arcs _ _ Hb).
  assert (transitions net = ∅ ↔ find_all ns root "transition" = []) as Htr.
  { rewrite (built_transitions _ _ Hb), <- (dom_empty_iff_L (D := gset Py.key)), relink_dom,
      (dom_empty_iff_L (D := gset Py.key)). simpl. fold ns. apply parse_transitions_empty. }
  rewrite Htr. simpl. fold ns. rewrite (parse_places_empty _ _ _ Hd), parse_arcs_app.
  simpl. rewrite Forall_fmap.
  split; intros (Hp & Ht & Harcs); (split; [done|]); (split; [done|]);
    (eapply Forall_impl; [exact Harcs|]); intros arc; simpl; by rewrite !Hnodes.
Qed.

Lemma loaded_net_consistent_witness :
  (check_consistency net_B).1 = true ↔
  find_all (namespace_of (scenario_B qualified)) (scenario_B qualified) "place" ≠ [] ∧
  find_all (namespace_of (scenario_B qualified)) (scenario_B qualified) "transition" ≠ [] ∧
  Forall (λ arc,
            (∃ q, (q ∈ find_all (namespace_of (scenario_B qualified)) (scenario_B qualified)
                              "place" ∨
                   q ∈ find_all (namespace_of (scenario_B qualified)) (scenario_B qualified)
                              "transition") ∧
                  ET.get q "id" = ET.get arc "source") ∧
            (∃ q, (q ∈ find_all (namespace_of (scenario_B qualified)) (scenario_B qualified)
                              "place" ∨
                   q ∈ find_all (namespace_of (scenario_B qualified)) (scenario_B qualified)
                              "transition") ∧
                  ET.get q "id" = ET.get arc "target"))
         (find_all (namespace_of (scenario_B qualified)) (scenario_B qualified) "arc").
Proof.
  apply (loaded_net_consistent (scenario_B qualified) net_B). vm_compute. reflexivity.
Defined.
